(** * MusicMatch: the matching engine of [logic.py]

    A shallow embedding of the backend of [logic.py] (the [User] record, the
    normalizer, the Jaccard similarity, and the [Matcher] store with its
    ranking, upsert and persistence), followed by the properties of the
    specification that concern it.

    Modelling conventions.
    - A Python [str] is a [string] of code points below 128; on those
      [str.casefold] lowers the letters A-Z and [str.isspace] holds of
      tab, line feed, vertical tab, form feed, carriage return, the four
      separators 28-31 and the blank.
    - A Python [set] of strings is a [gset string]; [sorted] over it is a
      sort of its elements under the code point order of strings.
    - The float produced by [len(..) / len(..)] is the exact quotient, a
      rational number [Q]; comparisons of scores are comparisons in [Q].
    - Exceptions are explicit: a fallible computation returns an [outcome].
    - A method that reads or writes [self] is a function in the state monad
      over the [Matcher]. *)

From Stdlib Require Import Ascii QArith.
From stdpp Require Import gmap strings list sorting.

Open Scope Z_scope.
Open Scope nat_scope.

(** ** Outcomes of fallible code *)

Inductive exn :=
  | TypeError
  | AttributeError
  | JSONDecodeError
  | OSError.

(** [Untyped] marks a run that builds a [User] whose fields break the
    annotations [name: str] and [top_artists: List[str]]; such records have
    no counterpart here, and what follows such a step is not modelled. *)
Inductive outcome (A : Type) :=
  | Return (a : A)
  | Raise (e : exn)
  | Untyped.
Arguments Return {A} a.
Arguments Raise {A} e.
Arguments Untyped {A}.

#[global] Instance outcome_ret : MRet outcome := @Return.
#[global] Instance outcome_bind : MBind outcome := λ A B f m,
  match m with
  | Return a => f a
  | Raise e => Raise e
  | Untyped => Untyped
  end.

(** Evaluate the items of a list left to right, stopping at the first one
    that does not return. *)
Fixpoint for_each {A B} (f : A → outcome B) (l : list A) : outcome (list B) :=
  match l with
  | [] => Return []
  | x :: l' => y ← f x; ys ← for_each f l'; Return (y :: ys)
  end.

(** ** The state monad of a method *)

Definition State (S A : Type) : Type := S → A * S.

Definition get {S} : State S S := λ s, (s, s).
Definition put {S} (s : S) : State S unit := λ _, (tt, s).
Definition run {S A} (c : State S A) (s : S) : A * S := c s.

#[global] Instance State_ret {S} : MRet (State S) := λ A a s, (a, s).
#[global] Instance State_bind {S} : MBind (State S) := λ A B f c s,
  let '(a, s') := c s in f a s'.

(** ** String methods *)

Module Str.

Definition isspace (c : ascii) : bool :=
  let n := nat_of_ascii c in
  ((9 <=? n) && (n <=? 13)) || ((28 <=? n) && (n <=? 32)).

Definition lower (c : ascii) : ascii :=
  let n := nat_of_ascii c in
  if (65 <=? n) && (n <=? 90) then ascii_of_nat (n + 32) else c.

Fixpoint casefold (s : string) : string :=
  match s with
  | EmptyString => EmptyString
  | String c s' => String (lower c) (casefold s')
  end.

Fixpoint lstrip (s : string) : string :=
  match s with
  | EmptyString => EmptyString
  | String c s' => if isspace c then lstrip s' else s
  end.

Fixpoint rstrip (s : string) : string :=
  match s with
  | EmptyString => EmptyString
  | String c s' =>
      match rstrip s' with
      | EmptyString => if isspace c then EmptyString else String c EmptyString
      | r => String c r
      end
  end.

Definition strip (s : string) : string := rstrip (lstrip s).

(** [split_go word s]: [word] is the current word, reversed. *)
Fixpoint split_go (word : string) (s : string) : list string :=
  match s with
  | EmptyString =>
      match word with EmptyString => [] | _ => [String.rev word] end
  | String c s' =>
      if isspace c then
        match word with
        | EmptyString => split_go EmptyString s'
        | _ => String.rev word :: split_go EmptyString s'
        end
      else split_go (String c word) s'
  end.

(** [s.split()] *)
Definition split (s : string) : list string := split_go EmptyString s.

(** [sep.join(l)] *)
Fixpoint join (sep : string) (l : list string) : string :=
  match l with
  | [] => EmptyString
  | [w] => w
  | w :: l' => w +:+ sep +:+ join sep l'
  end.

(** Truth value of a string: non-empty. *)
Definition truthy (s : string) : bool :=
  match s with EmptyString => false | _ => true end.

End Str.

(** ** Data and matching logic *)

Record User := mkUser { name : string; top_artists : list string }.

#[global] Instance User_eq_dec : EqDecision User.
Proof. solve_decision. Defined.

Definition normalize_artist (a : string) : string :=
  Str.join " " (Str.split (Str.casefold (Str.strip a))).

Definition normalized_artists (self : User) : list string :=
  normalize_artist <$> filter (λ a, Str.truthy (Str.strip a) = true) (top_artists self).

(** [n / m] on two lengths. *)
Definition truediv (n m : nat) : Q :=
  (inject_Z (Z.of_nat n) / inject_Z (Z.of_nat m))%Q.

Definition jaccard_similarity (a b : list string) : Q :=
  let set_a : gset string := list_to_set a in
  let set_b : gset string := list_to_set b in
  if bool_decide (set_a = ∅) && bool_decide (set_b = ∅) then 0%Q
  else truediv (size (set_a ∩ set_b)) (size (set_a ∪ set_b)).

Definition overlap_count (a b : list string) : nat :=
  size ((list_to_set a : gset string) ∩ list_to_set b).

(** [sorted(s)] for a set of strings. *)
Definition sorted (s : gset string) : list string :=
  merge_sort String.le (elements s).

(** ** JSON documents, as [json.load] returns them and [json.dump] takes them *)

#[local] Set Warnings "-register-all".
Inductive json :=
  | JNull
  | JBool (b : bool)
  | JNumber (z : Z)
  | JString (s : string)
  | JArray (items : list json)
  | JObject (members : list (string * json)).

(** The value stored under [key] in a dict given by its items, whose keys
    are distinct. *)
Fixpoint dict_lookup (members : list (string * json)) (key : string) : option json :=
  match members with
  | [] => None
  | (k, v) :: members' => if decide (k = key) then Some v else dict_lookup members' key
  end.

(** [v.get(key, default)]: only a dict has the method. *)
Definition py_get (v : json) (key : string) (dflt : json) : outcome json :=
  match v with
  | JObject members => Return (default dflt (dict_lookup members key))
  | _ => Raise AttributeError
  end.

(** The items [for u in v] runs over: the items of a list, the keys of a
    dict, the characters of a string; nothing else is iterable. *)
Definition py_iter (v : json) : outcome (list json) :=
  match v with
  | JArray items => Return items
  | JObject members => Return ((λ kv, JString kv.1) <$> members)
  | JString s => Return ((λ c, JString (String c EmptyString)) <$> String.list_ascii_of_string s)
  | _ => Raise TypeError
  end.

Definition as_str (v : json) : outcome string :=
  match v with JString s => Return s | _ => Untyped end.

Definition as_str_list (v : json) : outcome (list string) :=
  match v with JArray items => for_each as_str items | _ => Untyped end.

(** ** The seed data of [sample_users]

    Each item of the list display [seed] is a tuple display; the sixth item
    carries the unary [+] that ends the line before it. *)

Inductive seed_item :=
  | Tuple (n : string) (a : list string)
  | Pos (e : seed_item).

(** A tuple has no [__pos__]: unary plus on it raises [TypeError]. *)
Fixpoint eval_item (e : seed_item) : outcome (string * list string) :=
  match e with
  | Tuple n a => Return (n, a)
  | Pos e' => _ ← eval_item e'; Raise TypeError
  end.

Definition seed : list seed_item :=
  [ Tuple "Aarav" ["Taylor Swift"; "Weeknd"; "Imagine Dragons"; "AURORA"; "Coldplay"];
    Tuple "Zoya" ["BTS"; "Blackpink"; "IU"; "NewJeans"; "Weeknd"];
    Tuple "Kabir" ["Arijit Singh"; "Pritam"; "Shreya Ghoshal"; "A R Rahman"; "Jubin Nautiyal"];
    Tuple "Mia" ["Billie Eilish"; "Lana Del Rey"; "AURORA"; "Grimes"; "FKA twigs"];
    Tuple "Rishabh" ["Linkin Park"; "Imagine Dragons"; "Fall Out Boy"; "Green Day"; "My Chemical Romance"];
    Pos (Tuple "Anaya" ["AP Dhillon"; "Shubh"; "Karan Aujla"; "Badshah"; "Diljit Dosanjh"]);
    Tuple "Noah" ["Drake"; "Kendrick Lamar"; "J. Cole"; "Travis Scott"; "SZA"];
    Tuple "Ishi" ["A R Rahman"; "Shreya Ghoshal"; "KK"; "Arijit Singh"; "Sonu Nigam"];
    Tuple "Yuto" ["YOASOBI"; "Kenshi Yonezu"; "Aimer"; "King Gnu"; "Eve"];
    Tuple "Sana" ["Twice"; "Blackpink"; "NewJeans"; "LE SSERAFIM"; "IVE"] ].

Definition sample_users : outcome (list User) :=
  seed ← for_each eval_item seed;
  Return (map (λ na, mkUser na.1 na.2) seed).

(** The names written in [seed], in order. *)
Definition seed_names : list string :=
  ["Aarav"; "Zoya"; "Kabir"; "Mia"; "Rishabh"; "Anaya"; "Noah"; "Ishi"; "Yuto"; "Sana"].

(** ** Lists: stable sort in reverse, and slices *)

(** [l.sort(key=key, reverse=True)]: a stable sort under the reversed
    comparison of keys; items with equal keys keep their order. *)
Section Sort.
Context {A K : Type} (lt : K → K → bool) (key : A → K).

Fixpoint insert_reverse (x : A) (l : list A) : list A :=
  match l with
  | [] => [x]
  | y :: l' => if lt (key x) (key y) then y :: insert_reverse x l' else x :: l
  end.

Fixpoint sort_reverse (l : list A) : list A :=
  match l with
  | [] => []
  | x :: l' => insert_reverse x (sort_reverse l')
  end.

(** [no_rise x y]: the key of [y] is not above the key of [x]. *)
Definition no_rise (x y : A) : Prop := lt (key x) (key y) = false.
End Sort.

(** [l[:k]]: a negative [k] counts from the end. *)
Definition slice_to {A} (l : list A) (k : Z) : list A :=
  if (k <? 0)%Z then take (Z.to_nat (Z.of_nat (length l) + k)) l
  else take (Z.to_nat k) l.

(** ** Files *)

(** The regular files by path, with their text, and the paths that cannot be
    opened for writing. *)
Record filesystem := mkFs { files : gmap string string; unwritable : gset string }.

(** ** The Matcher *)

(** One entry of a match result: [(u, score, shared)]. *)
Definition entry : Type := User * Q * list string.

(** The sort key [(x[1], len(x[2]), x[0].name.casefold())]. *)
Definition sort_key (x : entry) : Q * nat * string :=
  (x.1.2, length x.2, Str.casefold (name x.1.1)).

(** [k1 < k2] on key tuples: decided by the first component that differs. *)
Definition key_lt (k1 k2 : Q * nat * string) : bool :=
  match (k1.1.1 ?= k2.1.1)%Q with
  | Lt => true
  | Gt => false
  | Eq =>
      match k1.1.2 ?= k2.1.2 with
      | Lt => true
      | Gt => false
      | Eq => String.ltb k1.2 k2.2
      end
  end.

Module Matcher.

Record t := mk { users : list User }.

(** [Matcher(users)]: [self.users = users or []]. *)
Definition __init__ (users : option (list User)) : t :=
  match users with
  | Some (u :: us) => mk (u :: us)
  | _ => mk []
  end.

(** The scan of [add_user]: the first index [i] with
    [users[i].name.strip().casefold() == user.name.strip().casefold()]. *)
Fixpoint add_user_scan (i : nat) (rest : list User) (user : User) : option nat :=
  match rest with
  | [] => None
  | u :: rest' =>
      if decide (Str.casefold (Str.strip (name u)) = Str.casefold (Str.strip (name user)))
      then Some i
      else add_user_scan (S i) rest' user
  end.

Definition add_user (user : User) : State t unit :=
  self ← get;
  match add_user_scan 0 (users self) user with
  | Some i => put (mk (<[i := user]> (users self)))
  | None => put (mk (users self ++ [user]))
  end.

(** One turn of the loop of [match]. *)
Definition match_step (query : User) (q_art : list string)
    (scored : list entry) (u : User) : list entry :=
  if decide (Str.casefold (Str.strip (name u)) = Str.casefold (Str.strip (name query)))
  then scored
  else
    let u_art := normalized_artists u in
    let score := jaccard_similarity q_art u_art in
    let shared := sorted ((list_to_set q_art : gset string) ∩ list_to_set u_art) in
    scored ++ [(u, score, shared)].

Definition match_ (query : User) (top_k : Z) : State t (list entry) :=
  self ← get;
  let q_art := normalized_artists query in
  let scored := foldl (match_step query q_art) [] (users self) in
  let scored := sort_reverse key_lt sort_key scored in
  mret (slice_to scored top_k).

(** --- persistence --- *)

(** [{"name": u.name, "top_artists": u.top_artists}] *)
Definition user_dict (u : User) : json :=
  JObject [("name", JString (name u));
           ("top_artists", JArray (JString <$> top_artists u))].

Definition to_dict (self : t) : json :=
  JObject [("users", JArray (user_dict <$> users self))].

(** [User(u.get("name", ""), u.get("top_artists", []))] *)
Definition user_of_dict (u : json) : outcome User :=
  n ← py_get u "name" (JString "");
  a ← py_get u "top_artists" (JArray []);
  n ← as_str n;
  a ← as_str_list a;
  Return (mkUser n a).

Section Persistence.
(** [json.load] on the text of a file, and the text that
    [json.dump(_, f, ensure_ascii=False, indent=2)] writes. *)
Variable json_load : string → outcome json.
Variable json_dump : json → string.

Definition from_file (fs : filesystem) (path : string) : outcome t :=
  match files fs !! path with
  | None => us ← sample_users; Return (__init__ (Some us))
  | Some text =>
      data ← json_load text;
      entries ← py_get data "users" (JArray []);
      entries ← py_iter entries;
      users ← for_each user_of_dict entries;
      Return (__init__ (Some users))
  end.

Definition save (self : t) (path : string) (fs : filesystem) : outcome filesystem :=
  if decide (path ∈ unwritable fs) then Raise OSError
  else Return (mkFs (<[path := json_dump (to_dict self)]> (files fs)) (unwritable fs)).
End Persistence.

End Matcher.

(** ** Derived notions used in the statements *)

(** The identity of a record: [u.name.strip().casefold()]. *)
Definition identity (u : User) : string := Str.casefold (Str.strip (name u)).

(** At most one record per identity. *)
Definition unique_identities (us : list User) : Prop := NoDup (identity <$> us).

(** The candidates of a query in the order of the store, and their ranking:
    the value of [scored] after the loop of [match] and after its sort. *)
Definition candidates (query : User) (self : Matcher.t) : list entry :=
  foldl (Matcher.match_step query (normalized_artists query)) [] (Matcher.users self).

Definition ranked (query : User) (self : Matcher.t) : list entry :=
  sort_reverse key_lt sort_key (candidates query self).

(** A run of [add_user] calls, one per record of [records], in order. *)
Fixpoint add_users (records : list User) : State Matcher.t unit :=
  match records with
  | [] => mret tt
  | r :: records' => _ ← Matcher.add_user r; add_users records'
  end.

(** ** A reader and a writer of JSON text

    An instance of [json.load] and [json.dump] for the examples below. The
    writer lays a document out as [json.dump] does with [indent=2] and
    [ensure_ascii=False]; the reader takes objects, arrays, strings, the
    three literals and integers (no fractions, no exponents), with blanks
    between the tokens. *)

Module JsonText.

Definition dquote : ascii := ascii_of_nat 34.
Definition backslash : ascii := ascii_of_nat 92.

Definition hex_digit (n : nat) : ascii :=
  if n <? 10 then ascii_of_nat (48 + n) else ascii_of_nat (87 + n).

(** What a character of a string becomes between the quotes. *)
Definition escape_char (c : ascii) : string :=
  let n := nat_of_ascii c in
  let esc (e : ascii) := String backslash (String e EmptyString) in
  if n =? 34 then esc dquote
  else if n =? 92 then esc backslash
  else if n =? 8 then esc "b"%char
  else if n =? 12 then esc "f"%char
  else if n =? 10 then esc "n"%char
  else if n =? 13 then esc "r"%char
  else if n =? 9 then esc "t"%char
  else if n <? 32 then
    String backslash ("u00" +:+ String (hex_digit (n / 16))
                                   (String (hex_digit (n mod 16)) EmptyString))
  else String c EmptyString.

Fixpoint escape (s : string) : string :=
  match s with
  | EmptyString => EmptyString
  | String c s' => escape_char c +:+ escape s'
  end.

Definition quote (s : string) : string :=
  String dquote (escape s +:+ String dquote EmptyString).

Fixpoint digits (fuel : nat) (n : N) (acc : string) : string :=
  let acc' := String (ascii_of_N (48 + n mod 10)) acc in
  match fuel with
  | 0 => acc'
  | S fuel' => if (n / 10 =? 0)%N then acc' else digits fuel' (n / 10)%N acc'
  end.

Definition decimal (z : Z) : string :=
  let n := Z.to_N (Z.abs z) in
  let d := digits (N.to_nat (N.log2 n)) n EmptyString in
  if (z <? 0)%Z then String "-"%char d else d.

Fixpoint indent (level : nat) : string :=
  match level with
  | 0 => EmptyString
  | S level' => "  " +:+ indent level'
  end.

Definition newline_indent (level : nat) : string :=
  String (ascii_of_nat 10) (indent level).

(** What stands between two items written below [level]. *)
Definition item_separator (level : nat) : string :=
  "," +:+ newline_indent (S level).

Fixpoint dump (level : nat) (j : json) : string :=
  match j with
  | JNull => "null"
  | JBool b => if b then "true" else "false"
  | JNumber z => decimal z
  | JString s => quote s
  | JArray [] => "[]"
  | JArray items =>
      "[" +:+ newline_indent (S level) +:+
      Str.join (item_separator level) (map (dump (S level)) items) +:+
      newline_indent level +:+ "]"
  | JObject [] => "{}"
  | JObject members =>
      "{" +:+ newline_indent (S level) +:+
      Str.join (item_separator level)
        (map (λ kv, let '(k, v) := kv in quote k +:+ ": " +:+ dump (S level) v)
             members) +:+
      newline_indent level +:+ "}"
  end.

Definition dumps (j : json) : string := dump 0 j.

Definition is_ws (c : ascii) : bool :=
  let n := nat_of_ascii c in
  (n =? 32) || (n =? 9) || (n =? 10) || (n =? 13).

Fixpoint skip_ws (s : string) : string :=
  match s with
  | EmptyString => EmptyString
  | String c s' => if is_ws c then skip_ws s' else s
  end.

Definition hex_value (c : ascii) : option nat :=
  let n := nat_of_ascii c in
  if (48 <=? n) && (n <=? 57) then Some (n - 48)
  else if (97 <=? n) && (n <=? 102) then Some (n - 87)
  else if (65 <=? n) && (n <=? 70) then Some (n - 55)
  else None.

(** The character that stands behind a backslash, the four hexadecimal
    digits of a [u] apart. *)
Definition unescape (e : ascii) : option ascii :=
  let n := nat_of_ascii e in
  if n =? 34 then Some dquote
  else if n =? 92 then Some backslash
  else if n =? 47 then Some "/"%char
  else if n =? 98 then Some (ascii_of_nat 8)
  else if n =? 102 then Some (ascii_of_nat 12)
  else if n =? 110 then Some (ascii_of_nat 10)
  else if n =? 114 then Some (ascii_of_nat 13)
  else if n =? 116 then Some (ascii_of_nat 9)
  else None.

(** The characters of a string up to its closing quote, and the rest. *)
Fixpoint read_string (s : string) : option (string * string) :=
  match s with
  | EmptyString => None
  | String c s' =>
      if nat_of_ascii c =? 34 then Some (EmptyString, s')
      else if nat_of_ascii c =? 92 then
        match s' with
        | String "u"%char (String h3 (String h2 (String h1 (String h0 s'')))) =>
            a3 ← hex_value h3; a2 ← hex_value h2;
            a1 ← hex_value h1; a0 ← hex_value h0;
            if (a3 =? 0) && (a2 =? 0) && (a1 <? 8) then
              '(str, rest) ← read_string s'';
              Some (String (ascii_of_nat (16 * a1 + a0)) str, rest)
            else None
        | String e s'' =>
            d ← unescape e;
            '(str, rest) ← read_string s'';
            Some (String d str, rest)
        | EmptyString => None
        end
      else if nat_of_ascii c <? 32 then None
      else '(str, rest) ← read_string s'; Some (String c str, rest)
  end.

Definition is_digit (c : ascii) : bool :=
  (48 <=? nat_of_ascii c) && (nat_of_ascii c <=? 57).

Fixpoint read_digits (acc : N) (s : string) : N * string :=
  match s with
  | String c s' =>
      if is_digit c then read_digits (10 * acc + (N_of_ascii c - 48))%N s'
      else (acc, s)
  | EmptyString => (acc, s)
  end.

(** An integer: a single [0], or digits that start with another one. *)
Definition read_natural (s : string) : option (N * string) :=
  match s with
  | String c s' =>
      if nat_of_ascii c =? 48 then Some (0%N, s')
      else if is_digit c then Some (read_digits 0 s)
      else None
  | EmptyString => None
  end.

Definition no_fraction (r : N * string) : option (N * string) :=
  match r.2 with
  | String c _ =>
      if is_digit c || (nat_of_ascii c =? 46) || (nat_of_ascii c =? 101)
         || (nat_of_ascii c =? 69)
      then None else Some r
  | EmptyString => Some r
  end.

Definition read_number (s : string) : option (Z * string) :=
  match s with
  | String "-"%char s' =>
      '(n, rest) ← read_natural s' ≫= no_fraction; Some ((- Z.of_N n)%Z, rest)
  | _ => '(n, rest) ← read_natural s ≫= no_fraction; Some (Z.of_N n, rest)
  end.

Fixpoint after_prefix (p s : string) : option string :=
  match p, s with
  | EmptyString, _ => Some s
  | String a p', String b s' => if decide (a = b) then after_prefix p' s' else None
  | _, _ => None
  end.

Section Sequences.
Variable read_value : string → option (json * string).

(** The items after the first bracket, up to the closing one. *)
Fixpoint read_items (fuel : nat) (s : string) : option (list json * string) :=
  match fuel with
  | 0 => None
  | S fuel' =>
      '(v, s1) ← read_value s;
      match skip_ws s1 with
      | String ","%char s2 => '(vs, s3) ← read_items fuel' s2; Some (v :: vs, s3)
      | String "]"%char s2 => Some ([v], s2)
      | _ => None
      end
  end.

Fixpoint read_members (fuel : nat) (s : string)
    : option (list (string * json) * string) :=
  match fuel with
  | 0 => None
  | S fuel' =>
      match skip_ws s with
      | String c s0 =>
          if nat_of_ascii c =? 34 then
            '(k, s1) ← read_string s0;
            match skip_ws s1 with
            | String ":"%char s2 =>
                '(v, s3) ← read_value s2;
                match skip_ws s3 with
                | String ","%char s4 =>
                    '(kvs, s5) ← read_members fuel' s4; Some ((k, v) :: kvs, s5)
                | String "}"%char s4 => Some ([(k, v)], s4)
                | _ => None
                end
            | _ => None
            end
          else None
      | EmptyString => None
      end
  end.
End Sequences.

(** A dict keeps each key where it was first written, with the value that
    was written last. *)
Fixpoint dict_set (d : list (string * json)) (k : string) (v : json)
    : list (string * json) :=
  match d with
  | [] => [(k, v)]
  | (k', v') :: d' => if decide (k' = k) then (k, v) :: d' else (k', v') :: dict_set d' k v
  end.

Definition as_dict (members : list (string * json)) : list (string * json) :=
  foldl (λ d kv, dict_set d kv.1 kv.2) [] members.

Fixpoint read_value (fuel : nat) (s : string) : option (json * string) :=
  match fuel with
  | 0 => None
  | S fuel' =>
      match skip_ws s with
      | EmptyString => None
      | String c s' as s0 =>
          if nat_of_ascii c =? 34 then
            '(str, rest) ← read_string s'; Some (JString str, rest)
          else if nat_of_ascii c =? 91 then
            match skip_ws s' with
            | String "]"%char rest => Some (JArray [], rest)
            | _ =>
                '(vs, rest) ← read_items (read_value fuel') (String.length s) s';
                Some (JArray vs, rest)
            end
          else if nat_of_ascii c =? 123 then
            match skip_ws s' with
            | String "}"%char rest => Some (JObject [], rest)
            | _ =>
                '(kvs, rest) ← read_members (read_value fuel') (String.length s) s';
                Some (JObject (as_dict kvs), rest)
            end
          else
            match after_prefix "null" s0, after_prefix "true" s0,
                  after_prefix "false" s0 with
            | Some rest, _, _ => Some (JNull, rest)
            | _, Some rest, _ => Some (JBool true, rest)
            | _, _, Some rest => Some (JBool false, rest)
            | _, _, _ => '(z, rest) ← read_number s0; Some (JNumber z, rest)
            end
      end
  end.

Definition loads (s : string) : outcome json :=
  match read_value (S (String.length s)) s with
  | Some (j, rest) =>
      match skip_ws rest with
      | EmptyString => Return j
      | _ => Raise JSONDecodeError
      end
  | None => Raise JSONDecodeError
  end.

(** Text that starts with a character that is no blank. *)
Definition solid (t : string) : Prop := ∀ rest, skip_ws (t +:+ rest) = t +:+ rest.

(** The text of one member of an object, given the text of its value. *)
Definition member_text (f : json → string) (kv : string * json) : string :=
  let '(k, v) := kv in quote k +:+ ": " +:+ f v.

End JsonText.

(** ** Stores and files of the examples *)

(** A store of two records that tie with the query ["Q"] on score and on
    shared count. *)
Definition ann_and_bob : Matcher.t :=
  Matcher.mk [mkUser "Ann" ["Muse"]; mkUser "Bob" ["Muse"]].

(** A store with two records of one normalized name. *)
Definition two_bobs : Matcher.t :=
  Matcher.mk [mkUser "Ann" ["Muse"]; mkUser "bob" ["Abba"]; mkUser " BOB " ["Queen"]].

(** A store with blank and whitespace-only artist entries. *)
Definition blank_entries : Matcher.t :=
  Matcher.mk [mkUser "Ann" ["Muse"; "  "; ""]; mkUser " ann" []; mkUser "" [" Muse"]].

(** No file at all, and one file that holds no JSON document. *)
Definition no_files : filesystem := mkFs ∅ ∅.

(** ** Notions used in the further properties *)

(** A string of whitespace only, and a string without whitespace. *)
Fixpoint blank (s : string) : bool :=
  match s with
  | EmptyString => true
  | String c s' => Str.isspace c && blank s'
  end.

Fixpoint nospace (s : string) : bool :=
  match s with
  | EmptyString => true
  | String c s' => negb (Str.isspace c) && nospace s'
  end.


(** A word: not empty, no whitespace. *)
Definition word (s : string) : Prop := s ≠ EmptyString ∧ nospace s = true.


(** The entry [match] builds for a stored record: [(u, score, shared)]. *)
Definition score_entry (query u : User) : entry :=
  let q_art := normalized_artists query in
  let u_art := normalized_artists u in
  (u, jaccard_similarity q_art u_art,
   sorted ((list_to_set q_art : gset string) ∩ list_to_set u_art)).

(** The score of an entry is not above the score of another. *)
Definition score_le (x y : entry) : Prop := (x.1.2 <= y.1.2)%Q.

(** Two sort keys agree in score, in shared count and in name. *)
Definition same_key (k1 k2 : Q * nat * string) : bool :=
  Qeq_bool k1.1.1 k2.1.1 && (k1.1.2 =? k2.1.2) && bool_decide (k1.2 = k2.2).

(** [reads_as e u]: the entry [e] of a file is a dict whose ["name"], when
    it has one, is the string [name u], and whose ["top_artists"], when it
    has one, is the list of strings [top_artists u]; the name and the list
    of an entry that lacks the key are the empty string and the empty list. *)
Definition reads_as (e : json) (u : User) : Prop :=
  ∃ members, e = JObject members ∧
    default (JString "") (dict_lookup members "name") = JString (name u) ∧
    default (JArray []) (dict_lookup members "top_artists")
      = JArray (JString <$> top_artists u).

(** A document whose entries lack keys and carry keys of their own. *)
Definition sparse_document : json :=
  JObject [("version", JNumber 2);
           ("users", JArray [JObject [];
                             JObject [("name", JString "Ann"); ("age", JNumber 30)];
                             JObject [("top_artists", JArray [JString "Muse"])]])].

(** ** The selection screen

    The state of the screen is the global list [selected_artists] and what
    the two labels show. An event carries the listbox it came from, as the
    list of its items, and the index that [widget.nearest(event.y)] gives.
    The value that [random.randint(50, 100)] returns is an argument of
    [find_match]. *)

Module Gui.

Record event := mkEvent { widget : list string; nearest : nat }.

(** [widget.get(index)]: the item at the index, the empty string when the
    listbox has none there. *)
Definition listbox_get (items : list string) (index : nat) : string :=
  default EmptyString (items !! index).

(** The texts of [result_label]: the empty text it starts with, the request
    for five artists, and the percentage. The last two carry characters
    beyond the code points of [string] and are kept apart by name. *)
Inductive result_text :=
  | NoResult
  | PleaseSelect
  | YouMatched (percentage : Z).

Record state := mkState {
  selected_artists : list string;
  selected_label : string;
  result_label : result_text * option string
}.

(** The listbox is filled with [artists]. *)
Definition artists : list string :=
  ["Taylor Swift"; "The Weeknd"; "Billie Eilish";
   "Drake"; "Kendrick Lamar"; "Ariana Grande";
   "Ed Sheeran"; "Dua Lipa"; "Coldplay"; "BTS"].

(** The screen when the window opens. *)
Definition initial : state := mkState [] "Selected: None" (NoResult, None).

Definition add_artist (ev : event) : State state unit :=
  s ← get;
  let index := nearest ev in
  let artist := listbox_get (widget ev) index in
  if decide ((artist ∉ selected_artists s) ∧ length (selected_artists s) < 5) then
    let selected := selected_artists s ++ [artist] in
    put (mkState selected ("Selected: " +:+ Str.join ", " selected) (result_label s))
  else mret tt.

Definition find_match (randint : Z) : State state unit :=
  s ← get;
  if decide (length (selected_artists s) < 5) then
    put (mkState (selected_artists s) (selected_label s) (PleaseSelect, Some "orange"))
  else
    let percentage := randint in
    put (mkState (selected_artists s) (selected_label s)
           (YouMatched percentage, Some "#6c63ff")).

(** A run of clicks on the listbox, in order. *)
Fixpoint clicks (evs : list event) : State state unit :=
  match evs with
  | [] => mret tt
  | ev :: evs' => _ ← add_artist ev; clicks evs'
  end.

End Gui.

(** What a run of clicks keeps of the screen [s0] it starts from: no artist
    is selected twice, at most five are selected, the selection only grows
    at its end, the label shows the selection once it has changed, and the
    result label is left alone. *)
Definition screen_ok (s0 s : Gui.state) : Prop :=
  NoDup (Gui.selected_artists s) ∧
  length (Gui.selected_artists s) ≤ 5 ∧
  Gui.selected_artists s0 `prefix_of` Gui.selected_artists s ∧
  (Gui.selected_artists s = Gui.selected_artists s0 ∧
   Gui.selected_label s = Gui.selected_label s0 ∨
   Gui.selected_label s =
     "Selected: " +:+ Str.join ", " (Gui.selected_artists s)) ∧
  Gui.result_label s = Gui.result_label s0.

(** Files of the further examples: one that holds [sparse_document], one
    that holds a list. *)
Definition sparse_file : filesystem :=
  mkFs {["users.json" := JsonText.dumps sparse_document]} ∅.
Definition list_file : filesystem := mkFs {["users.json" := "[]"]} ∅.

(** * Properties *)

(** ** The stable sort in reverse *)

Section SortFacts.
Context {A K : Type} (lt : K → K → bool) (key : A → K).

Lemma insert_reverse_Permutation x l :
  insert_reverse lt key x l ≡ₚ x :: l.
Proof.
  induction l as [|y l IH]; simpl; [done|].
  destruct (lt (key x) (key y)); [|done].
  rewrite IH. apply Permutation_swap.
Qed.

Lemma sort_reverse_Permutation l : sort_reverse lt key l ≡ₚ l.
Proof.
  induction l as [|x l IH]; simpl; [done|].
  by rewrite insert_reverse_Permutation, IH.
Qed.

Lemma length_sort_reverse l : length (sort_reverse lt key l) = length l.
Proof. apply Permutation_length, sort_reverse_Permutation. Qed.

Hypothesis lt_asym : ∀ k1 k2, lt k1 k2 = true → lt k2 k1 = false.

Lemma insert_reverse_HdRel z x l :
  no_rise lt key z x → HdRel (no_rise lt key) z l →
  HdRel (no_rise lt key) z (insert_reverse lt key x l).
Proof.
  intros Hzx Hzl. destruct l as [|y l]; simpl; [by constructor|].
  destruct (lt (key x) (key y)); [|by constructor].
  inversion Hzl; by constructor.
Qed.

Lemma insert_reverse_Sorted x l :
  Sorted (no_rise lt key) l → Sorted (no_rise lt key) (insert_reverse lt key x l).
Proof.
  induction 1 as [|y l Hl IH Hy]; simpl; [by repeat constructor|].
  destruct (lt (key x) (key y)) eqn:Hxy.
  - constructor; [done|]. apply insert_reverse_HdRel; [|done].
    by apply lt_asym.
  - constructor; [by constructor|]. by constructor.
Qed.

Lemma sort_reverse_Sorted l : Sorted (no_rise lt key) (sort_reverse lt key l).
Proof.
  induction l as [|x l IH]; simpl; [constructor|].
  by apply insert_reverse_Sorted.
Qed.
End SortFacts.

Lemma key_lt_asym k1 k2 : key_lt k1 k2 = true → key_lt k2 k1 = false.
Proof.
  destruct k1 as [[s1 n1] c1], k2 as [[s2 n2] c2]. unfold key_lt; simpl.
  rewrite <-(Qcompare_antisym s1 s2), (Nat.compare_antisym n1 n2).
  destruct (s1 ?= s2)%Q; simpl; try done.
  destruct (n1 ?= n2); simpl; try done.
  unfold String.ltb. rewrite (String.compare_antisym c2 c1).
  by destruct (c1 ?= c2)%string.
Qed.

(** ** Slices *)

Lemma slice_to_nonneg {A} (l : list A) (k : Z) :
  (0 ≤ k)%Z → slice_to l k = take (Z.to_nat k) l.
Proof. intros Hk. unfold slice_to. by rewrite (proj2 (Z.ltb_ge k 0)). Qed.

Lemma slice_to_neg {A} (l : list A) (k : Z) :
  (k < 0)%Z → slice_to l k = take (length l - Z.to_nat (- k)) l.
Proof.
  intros Hk. unfold slice_to. rewrite (proj2 (Z.ltb_lt k 0)) by done.
  f_equal. lia.
Qed.

(** ** The loop of [match] *)

Lemma foldl_match_step query q_art acc us :
  foldl (Matcher.match_step query q_art) acc us =
  acc ++ foldl (Matcher.match_step query q_art) [] us.
Proof.
  revert acc. induction us as [|u us IH]; intros acc; simpl.
  - by rewrite app_nil_r.
  - rewrite (IH (Matcher.match_step _ _ acc u)), (IH (Matcher.match_step _ _ [] u)).
    unfold Matcher.match_step. case_decide; simpl; [done|].
    by rewrite <-app_assoc.
Qed.

Lemma candidates_cons query u us :
  candidates query (Matcher.mk (u :: us)) =
  Matcher.match_step query (normalized_artists query) [] u ++
  candidates query (Matcher.mk us).
Proof. unfold candidates; simpl. apply foldl_match_step. Qed.

(** Every candidate is a stored record with another identity than the query. *)
Lemma candidates_Forall query self :
  Forall (λ x : entry, x.1.1 ∈ Matcher.users self ∧ identity x.1.1 ≠ identity query)
         (candidates query self).
Proof.
  destruct self as [us]. induction us as [|u us IH]; [constructor|].
  rewrite candidates_cons. apply Forall_app. split.
  - unfold Matcher.match_step. case_decide; constructor; [|constructor].
    simpl. split; [left|done].
  - eapply Forall_impl; [exact IH|]. simpl. intros x [??]. split; [by right|done].
Qed.

Lemma match_result query top_k self :
  (Matcher.match_ query top_k self).1 = slice_to (ranked query self) top_k.
Proof. done. Qed.

Lemma Sorted_take {A} (R : relation A) (l : list A) (n : nat) :
  Sorted R l → Sorted R (take n l).
Proof.
  intros Hl. revert n. induction Hl as [|x l Hl IH Hx]; intros [|n]; simpl;
    try constructor; [done|].
  destruct Hx, n; simpl; by constructor.
Qed.

Lemma slice_to_Sorted {A} (R : relation A) (l : list A) (k : Z) :
  Sorted R l → Sorted R (slice_to l k).
Proof. intros Hl. unfold slice_to. destruct (k <? 0)%Z; by apply Sorted_take. Qed.

Lemma slice_to_Forall {A} (P : A → Prop) (l : list A) (k : Z) :
  Forall P l → Forall P (slice_to l k).
Proof. intros Hl. unfold slice_to. destruct (k <? 0)%Z; by apply Forall_take. Qed.

(** ** What [match] returns *)

(** The order [match] really produces: along the result the key tuple
    [(score, shared-count, case-folded name)] never rises, so that among
    entries of equal score and shared count the case-folded names descend. *)
Lemma match_sorted_by_key_descending query top_k self :
  Sorted (no_rise key_lt sort_key) (Matcher.match_ query top_k self).1.
Proof.
  rewrite match_result. apply slice_to_Sorted, sort_reverse_Sorted, key_lt_asym.
Qed.

Lemma ranked_Permutation query self : ranked query self ≡ₚ candidates query self.
Proof. apply sort_reverse_Permutation. Qed.

(** C2, on the code: with score and shared count equal, [match] returns
    "Bob" before "Ann". The sort runs with [reverse=True] over the whole key
    tuple, so the case-folded name is ordered descending as well, against
    the ascending order of the claim and of the comment above the sort. *)
Theorem match_orders_tied_names_descending :
  (Matcher.match_ (mkUser "Q" ["Muse"]) 5 ann_and_bob).1 =
  [ (mkUser "Bob" ["Muse"], (1 # 1)%Q, ["muse"]);
    (mkUser "Ann" ["Muse"], (1 # 1)%Q, ["muse"]) ].
Proof. vm_compute. reflexivity. Qed.

(** C5: no entry returned by [match] is a record whose normalized name
    equals the normalized name of the query; every entry is a stored record.
    The store may hold any number of case or whitespace variants of the
    name of the query. *)
Theorem match_excludes_query_identity (self : Matcher.t) (query : User) (top_k : Z) :
  Forall (λ x : entry,
            x.1.1 ∈ Matcher.users self ∧
            Str.casefold (Str.strip (name x.1.1)) ≠ Str.casefold (Str.strip (name query)))
         (Matcher.match_ query top_k self).1.
Proof.
  rewrite match_result. apply slice_to_Forall.
  rewrite ranked_Permutation. apply candidates_Forall.
Qed.

(** Three stored variants of the name of the query are all left out. *)
Example match_excludes_every_variant :
  (Matcher.match_ (mkUser "aNN" ["Muse"]) 5
     (Matcher.mk [mkUser "Ann" ["Muse"]; mkUser " ANN " ["Muse"];
                  mkUser "Bob" []; mkUser "ann" []])).1
  = [ (mkUser "Bob" [], (0 # 1)%Q, []) ].
Proof. vm_compute. reflexivity. Qed.

(** C6, as stated, fails: with [top_k = -1] and two candidates [match]
    returns one entry, not the empty sequence. *)
Lemma match_negative_top_k_not_empty :
  ¬ ((Matcher.match_ (mkUser "Q" ["Muse"]) (-1) ann_and_bob).1 = []).
Proof. vm_compute. discriminate. Qed.

(** C6, amended: for [top_k >= 0] the result is the first [top_k] entries of
    the ranking, the whole ranking when it has at most [top_k] entries, and
    empty for [top_k = 0]; for [top_k < 0] the slice [scored[:top_k]] drops
    the last [-top_k] entries of the ranking instead, and is empty exactly
    when the ranking has at most [-top_k] entries. *)
Theorem match_truncates_to_top_k (self : Matcher.t) (query : User) (top_k : Z) :
  let result := (Matcher.match_ query top_k self).1 in
  let all := ranked query self in
  ((0 ≤ top_k)%Z →
     result = take (Z.to_nat top_k) all ∧
     length result = Nat.min (Z.to_nat top_k) (length all) ∧
     ((Z.of_nat (length all) ≤ top_k)%Z → result = all)) ∧
  (top_k = 0%Z → result = []) ∧
  ((top_k < 0)%Z →
     result = take (length all - Z.to_nat (- top_k)) all ∧
     length result = length all - Z.to_nat (- top_k) ∧
     (result = [] ↔ (Z.of_nat (length all) ≤ - top_k)%Z)).
Proof.
  intros result all. subst result. rewrite match_result. fold all.
  split; [|split].
  - intros Hk. rewrite slice_to_nonneg by done. split; [done|]. split.
    + apply length_take.
    + intros Hall. apply take_ge. lia.
  - intros ->. done.
  - intros Hk. rewrite slice_to_neg by done. split; [done|]. split.
    + rewrite length_take. lia.
    + split.
      * intros Hnil. apply (f_equal length) in Hnil.
        rewrite length_take in Hnil. simpl in Hnil. lia.
      * intros Hall. replace (length all - Z.to_nat (- top_k)) with 0 by lia.
        done.
Qed.

(** C9: [match] leaves the store as it found it: the Matcher after the call
    is the Matcher before it, so the query has not been added to the
    collection and every index holds the record it held. *)
Theorem match_leaves_store_unchanged (self : Matcher.t) (query : User) (top_k : Z) :
  let after := (run (Matcher.match_ query top_k) self).2 in
  after = self ∧
  length (Matcher.users after) = length (Matcher.users self) ∧
  (query ∈ Matcher.users after ↔ query ∈ Matcher.users self) ∧
  ∀ i, Matcher.users after !! i = Matcher.users self !! i.
Proof.
  intros after.
  assert (after = self) as -> by reflexivity.
  by repeat split.
Qed.

(** By contrast [add_user] does write to the store. *)
Example add_user_changes_store :
  (run (Matcher.add_user (mkUser "Cy" [])) ann_and_bob).2 ≠ ann_and_bob.
Proof. vm_compute. discriminate. Qed.

(** ** The shared artists of an entry *)

Lemma sorted_Permutation (s : gset string) : sorted s ≡ₚ elements s.
Proof. apply merge_sort_Permutation. Qed.

Lemma elem_of_sorted (s : gset string) (x : string) : x ∈ sorted s ↔ x ∈ s.
Proof. by rewrite sorted_Permutation, elem_of_elements. Qed.

Lemma sorted_ascending (s : gset string) : Sorted String.le (sorted s).
Proof. apply (Sorted_merge_sort String.le). Qed.

Lemma length_sorted (s : gset string) : length (sorted s) = size s.
Proof. by rewrite sorted_Permutation. Qed.

(** Each candidate carries the similarity of its record to the query and
    their shared artists; the shared count that breaks ties is
    [overlap_count]. *)
Lemma candidates_scored query self :
  Forall (λ x : entry,
            let q_art := normalized_artists query in
            let u_art := normalized_artists x.1.1 in
            x.1.2 = jaccard_similarity q_art u_art ∧
            x.2 = sorted ((list_to_set q_art : gset string) ∩ list_to_set u_art) ∧
            length x.2 = overlap_count q_art u_art)
         (candidates query self).
Proof.
  destruct self as [us]. induction us as [|u us IH]; [constructor|].
  rewrite candidates_cons. apply Forall_app. split; [|exact IH].
  unfold Matcher.match_step. case_decide; constructor; [|constructor].
  simpl. split; [done|]. split; [done|]. apply length_sorted.
Qed.

(** ** Upsert *)

(** The scan stops at the first record with the identity of [user]. *)
Lemma add_user_scan_Some i rest user j :
  Matcher.add_user_scan i rest user = Some j →
  ∃ k u, j = i + k ∧ rest !! k = Some u ∧ identity u = identity user ∧
         ∀ k' u', k' < k → rest !! k' = Some u' → identity u' ≠ identity user.
Proof.
  revert i. induction rest as [|v rest IH]; intros i; simpl; [done|].
  case_decide as Hv.
  - intros [= <-]. exists 0, v. split; [lia|]. split; [done|]. split; [done|].
    intros ???. lia.
  - intros (k & u & -> & Hk & Hu & Hfirst)%IH.
    exists (S k), u. split; [lia|]. split; [done|]. split; [done|].
    intros [|k'] u' Hlt; simpl; [by intros [= <-]|].
    apply Hfirst. lia.
Qed.

Lemma add_user_scan_None i rest user :
  Matcher.add_user_scan i rest user = None ↔
  ∀ u, u ∈ rest → identity u ≠ identity user.
Proof.
  revert i. induction rest as [|v rest IH]; intros i; simpl.
  - split; [|done]. intros _ u Hu. by apply elem_of_nil in Hu.
  - case_decide as Hv.
    + split; [done|]. intros Hall. destruct (Hall v); [left|done].
    + rewrite IH. split.
      * intros Hall u [->|Hu]%elem_of_cons; [done|by apply Hall].
      * intros Hall u Hu. apply Hall. by right.
Qed.

Lemma add_user_users user self :
  Matcher.users (run (Matcher.add_user user) self).2 =
  match Matcher.add_user_scan 0 (Matcher.users self) user with
  | Some i => <[i := user]> (Matcher.users self)
  | None => Matcher.users self ++ [user]
  end.
Proof.
  unfold run, Matcher.add_user, mbind, State_bind, get; simpl.
  by destruct (Matcher.add_user_scan _ _ _).
Qed.

(** With identities unique, a record is the first with its identity. *)
Lemma unique_identities_lookup us i j u v :
  unique_identities us → us !! i = Some u → us !! j = Some v →
  identity u = identity v → i = j.
Proof.
  intros Hnd Hi Hj Huv. eapply NoDup_lookup; [exact Hnd| |].
  - by rewrite list_lookup_fmap, Hi.
  - by rewrite list_lookup_fmap, Hj, Huv.
Qed.

Lemma add_user_unique_identities user self :
  unique_identities (Matcher.users self) →
  unique_identities (Matcher.users (run (Matcher.add_user user) self).2).
Proof.
  unfold unique_identities. intros Hnd. rewrite add_user_users.
  destruct (Matcher.add_user_scan _ _ _) as [i|] eqn:Hscan.
  - apply add_user_scan_Some in Hscan as (k & u & -> & Hk & Hu & _). simpl.
    rewrite list_fmap_insert, <-Hu. rewrite list_insert_id; [done|].
    by rewrite list_lookup_fmap, Hk.
  - rewrite fmap_app. simpl. apply NoDup_app. split; [done|]. split.
    + intros x (u & -> & Hin)%list_elem_of_fmap Hx%list_elem_of_singleton.
      by eapply add_user_scan_None.
    + apply NoDup_singleton.
Qed.

Lemma add_users_cons r records self :
  (run (add_users (r :: records)) self).2 =
  (run (add_users records) (run (Matcher.add_user r) self).2).2.
Proof.
  unfold run; simpl. unfold mbind, State_bind.
  by destruct (Matcher.add_user r self).
Qed.

(** C3, as stated, fails: a Matcher built from a caller-supplied list keeps
    the list as it is, here two records with one normalized name. *)
Lemma init_keeps_duplicate_identities :
  ¬ unique_identities
      (Matcher.users (Matcher.__init__ (Some [mkUser "Ann" ["Muse"]; mkUser " ANN" []]))).
Proof.
  unfold unique_identities. vm_compute. intros Hnd.
  apply NoDup_cons in Hnd as [Hnin _]. apply Hnin. left.
Qed.

(** C3, amended: the empty Matcher holds at most one record per normalized
    identity, [add_user] keeps it so, and so does any sequence of [add_user]
    calls started from a collection that has the property. *)
Theorem add_user_preserves_unique_identities (self : Matcher.t) (records : list User) :
  unique_identities (Matcher.users self) →
  unique_identities (Matcher.users (Matcher.__init__ None)) ∧
  unique_identities (Matcher.users (run (add_users records) self).2).
Proof.
  intros Hself. split; [apply NoDup_nil_2|].
  revert self Hself. induction records as [|r records IH]; intros self Hself.
  - done.
  - rewrite add_users_cons. by apply IH, add_user_unique_identities.
Qed.

(** C4, as stated, fails: in a store with two records of one normalized
    name, [add_user] of a record with that name overwrites the first of them
    and leaves the second, at index 2, as it was. *)
Lemma add_user_leaves_later_variant :
  ¬ (∀ j u, Matcher.users two_bobs !! j = Some u →
       Str.casefold (Str.strip (name u)) = Str.casefold (Str.strip "Bob") →
       Matcher.users (run (Matcher.add_user (mkUser "Bob" ["Muse"])) two_bobs).2 !! j
         = Some (mkUser "Bob" ["Muse"])).
Proof.
  intros Hall. specialize (Hall 2 (mkUser " BOB " ["Queen"]) eq_refl eq_refl).
  vm_compute in Hall. discriminate.
Qed.

(** C4, amended: when some stored record has the normalized name of [user],
    [add_user] overwrites the first such record at its index, the size
    stays and every other record, a later one of that name included, is left
    as it is; with identities unique the overwritten record is the matching
    one, at its own index. When no stored record has the name, [user] is
    appended at the end. *)
Theorem add_user_replaces_in_place_or_appends (self : Matcher.t) (user : User) :
  let us := Matcher.users self in
  let us' := Matcher.users (run (Matcher.add_user user) self).2 in
  (∀ j u, us !! j = Some u →
     Str.casefold (Str.strip (name u)) = Str.casefold (Str.strip (name user)) →
     ∃ i, i ≤ j ∧
       (∀ i' u', i' < i → us !! i' = Some u' → identity u' ≠ identity user) ∧
       (∃ u0, us !! i = Some u0 ∧ identity u0 = identity user) ∧
       us' = <[i := user]> us ∧
       us' !! i = Some user ∧
       (∀ i', i' ≠ i → us' !! i' = us !! i') ∧
       length us' = length us ∧
       (unique_identities us → i = j)) ∧
  ((∀ u, u ∈ us → Str.casefold (Str.strip (name u)) ≠ Str.casefold (Str.strip (name user))) →
     us' = us ++ [user] ∧ length us' = S (length us)).
Proof.
  intros us us'. subst us'. rewrite add_user_users. fold us. split.
  - intros j u Hj Hu.
    destruct (Matcher.add_user_scan 0 us user) as [i|] eqn:Hscan.
    + apply add_user_scan_Some in Hscan as (k & u0 & -> & Hk & Hu0 & Hfirst).
      simpl. exists k. split.
      { destruct (decide (k ≤ j)) as [|Hlt]; [done|].
        destruct (Hfirst j u); [lia|done|done]. }
      split; [done|]. split; [by exists u0|]. split; [done|].
      split; [apply list_lookup_insert_eq; by eapply lookup_lt_Some|].
      split; [intros i' Hi'; by apply list_lookup_insert_ne|].
      split; [apply length_insert|].
      intros Hnd. eapply unique_identities_lookup; [done..|].
      by rewrite Hu0.
    + destruct (proj1 (add_user_scan_None 0 us user) Hscan u); [|done].
      by eapply list_elem_of_lookup_2.
  - intros Hnone. rewrite (proj2 (add_user_scan_None 0 us user) Hnone).
    split; [done|]. rewrite length_app. simpl. lia.
Qed.

(** ** Similarity *)

Lemma list_to_set_nil_iff (l : list string) :
  (list_to_set l : gset string) = ∅ ↔ l = [].
Proof.
  split; [|by intros ->].
  destruct l as [|x l]; [done|]. intros Hl.
  assert (x ∈ (∅ : gset string)) as Hx by (rewrite <-Hl; set_solver).
  set_solver.
Qed.

Lemma list_to_set_same_elements (l l' : list string) :
  (∀ x, x ∈ l ↔ x ∈ l') → (list_to_set l : gset string) = list_to_set l'.
Proof. intros Hll'. apply set_eq. intros x. rewrite !elem_of_list_to_set. apply Hll'. Qed.

(** The two sizes of the quotient, counted on lists without duplicates. *)
Lemma size_intersection_lists (a b : list string) :
  size ((list_to_set a : gset string) ∩ list_to_set b) =
  length (filter (.∈ b) (remove_dups a)).
Proof.
  rewrite <-(size_list_to_set (C:=gset string)).
  - f_equal. apply set_eq. intros x.
    rewrite elem_of_intersection, !elem_of_list_to_set, list_elem_of_filter,
      elem_of_remove_dups.
    tauto.
  - apply NoDup_filter, NoDup_remove_dups.
Qed.

Lemma size_union_lists (a b : list string) :
  size ((list_to_set a : gset string) ∪ list_to_set b) =
  length (remove_dups (a ++ b)).
Proof.
  rewrite <-(size_list_to_set (C:=gset string)) by apply NoDup_remove_dups.
  f_equal. apply set_eq. intros x.
  rewrite elem_of_union, !elem_of_list_to_set, elem_of_remove_dups, elem_of_app.
  done.
Qed.

Lemma truediv_bounds (n m : nat) : n ≤ m → (0 <= truediv n m <= 1)%Q.
Proof.
  intros Hnm. unfold truediv. destruct m as [|m].
  - replace n with 0 by lia. split; vm_compute; discriminate.
  - assert (0 < inject_Z (Z.of_nat (S m)))%Q as Hm.
    { rewrite <-(Zlt_Qlt 0). lia. }
    split.
    + apply Qle_shift_div_l; [done|]. rewrite Qmult_0_l, <-(Zle_Qle 0). lia.
    + apply Qle_shift_div_r; [done|]. rewrite Qmult_1_l, <-Zle_Qle. lia.
Qed.

(** C7: the score is the Jaccard index of the two lists viewed as sets,
    the number of distinct strings in both over the number of distinct
    strings in either; it does not depend on order or repetition; it is
    exactly 0 when both lists are empty; and it lies between 0 and 1. *)
Theorem jaccard_similarity_is_jaccard_index (a b : list string) :
  let inter := filter (.∈ b) (remove_dups a) in
  let union := remove_dups (a ++ b) in
  jaccard_similarity a b =
    (if decide (a = [] ∧ b = []) then 0
     else inject_Z (Z.of_nat (length inter)) / inject_Z (Z.of_nat (length union)))%Q ∧
  jaccard_similarity [] [] = 0%Q ∧
  (0 <= jaccard_similarity a b <= 1)%Q ∧
  (∀ a' b', (∀ x, x ∈ a' ↔ x ∈ a) → (∀ x, x ∈ b' ↔ x ∈ b) →
     jaccard_similarity a' b' = jaccard_similarity a b).
Proof.
  intros inter union. split; [|split; [done|split]].
  - unfold jaccard_similarity.
    rewrite size_intersection_lists, size_union_lists.
    destruct (decide (a = [] ∧ b = [])) as [[-> ->]|Hne]; [done|].
    destruct (bool_decide _ && bool_decide _) eqn:Hempty; [|done].
    apply andb_true_iff in Hempty as [Ha Hb].
    apply bool_decide_eq_true, list_to_set_nil_iff in Ha, Hb. by destruct Hne.
  - unfold jaccard_similarity.
    destruct (bool_decide _ && bool_decide _); [split; vm_compute; discriminate|].
    apply truediv_bounds, subseteq_size.
    etrans; [apply intersection_subseteq_l|apply union_subseteq_l].
  - intros a' b' Ha Hb. unfold jaccard_similarity.
    by rewrite (list_to_set_same_elements a' a), (list_to_set_same_elements b' b).
Qed.

(** ** Persistence *)

Lemma sample_users_raises : sample_users = Raise TypeError.
Proof. reflexivity. Qed.

(** The list display [seed] has ten items, and the names written in them are
    the ten demo names; the sixth item is the one under the unary plus. *)
Lemma seed_items :
  length seed = 10 ∧
  seed !! 5 = Some (Pos (Tuple "Anaya"
    ["AP Dhillon"; "Shubh"; "Karan Aujla"; "Badshah"; "Diljit Dosanjh"])) ∧
  (fix written e := match e with Tuple n _ => n | Pos e' => written e' end) <$> seed
    = seed_names.
Proof. by repeat split. Qed.

Lemma as_str_list_strings (l : list string) :
  as_str_list (JArray (JString <$> l)) = Return l.
Proof.
  unfold as_str_list. induction l as [|x l IH]; [done|].
  rewrite fmap_cons. cbn [for_each]. by rewrite IH.
Qed.

Section PersistenceFacts.
Variable json_load : string → outcome json.
Variable json_dump : json → string.

(** C1, on the code: for a path with no file, [from_file] raises
    [TypeError] and returns no Matcher. It calls [sample_users], whose list
    display applies a unary [+] to the tuple of "Anaya". *)
Theorem from_file_missing_path_raises (fs : filesystem) (path : string) :
  files fs !! path = None →
  Matcher.from_file json_load fs path = Raise TypeError.
Proof. intros Hpath. unfold Matcher.from_file. by rewrite Hpath. Qed.

(** What [from_file] makes of the entries that [to_dict] writes. *)
Lemma user_of_dict_user_dict (u : User) :
  Matcher.user_of_dict (Matcher.user_dict u) = Return u.
Proof.
  destruct u as [n a]. unfold Matcher.user_of_dict, Matcher.user_dict.
  cbn -[as_str_list]. repeat (case_decide; try done).
  cbn -[as_str_list]. by rewrite as_str_list_strings.
Qed.

Lemma from_file_entries (us : list User) :
  for_each Matcher.user_of_dict (Matcher.user_dict <$> us) = Return us.
Proof.
  induction us as [|u us IH]; [done|].
  rewrite fmap_cons. cbn [for_each]. by rewrite user_of_dict_user_dict, IH.
Qed.

(** C8: when [json.load] reads back the document that [json.dump] wrote and
    the path can be written, [save] returns and [from_file] on the same
    path returns a Matcher with the very list of records that was saved:
    same names, same artist lists, same order, blank artist entries
    included. *)
Theorem save_then_from_file_round_trip
    (self : Matcher.t) (path : string) (fs : filesystem) :
  json_load (json_dump (Matcher.to_dict self)) = Return (Matcher.to_dict self) →
  path ∉ unwritable fs →
  ∃ fs', Matcher.save json_dump self path fs = Return fs' ∧
         Matcher.from_file json_load fs' path = Return self ∧
         ∀ m, Matcher.from_file json_load fs' path = Return m →
              Matcher.users m = Matcher.users self.
Proof.
  intros Hcodec Hpath. unfold Matcher.save. rewrite decide_False by done.
  eexists. split; [done|].
  assert (Matcher.from_file json_load
            (mkFs (<[path:=json_dump (Matcher.to_dict self)]> (files fs))
                  (unwritable fs)) path = Return self) as Hload.
  { unfold Matcher.from_file. simpl files. rewrite lookup_insert_eq, Hcodec.
    destruct self as [us]. unfold Matcher.to_dict.
    cbn -[for_each Matcher.user_of_dict Matcher.user_dict].
    case_decide; [|done].
    cbn -[for_each Matcher.user_of_dict Matcher.user_dict].
    rewrite from_file_entries. cbn. by destruct us. }
  split; [done|]. intros m. rewrite Hload. by intros [= <-].
Qed.

End PersistenceFacts.

(** ** The reader reads back what the writer wrote for a Matcher *)

Module JsonTextFacts.
Import JsonText.

Lemma append_nil (b : string) : EmptyString +:+ b = b.
Proof. reflexivity. Qed.

Lemma append_cons (c : ascii) (a b : string) : String c a +:+ b = String c (a +:+ b).
Proof. reflexivity. Qed.

Lemma append_assoc (a b c : string) : (a +:+ b) +:+ c = a +:+ b +:+ c.
Proof. induction a as [|x a IH]; [done|]. rewrite !append_cons. by rewrite IH. Qed.

Lemma length_append (a b : string) :
  String.length (a +:+ b) = String.length a + String.length b.
Proof.
  induction a as [|x a IH]; [done|]. rewrite append_cons. simpl. by rewrite IH.
Qed.

Lemma length_skip_ws (s : string) : String.length (skip_ws s) ≤ String.length s.
Proof.
  induction s as [|c s IH]; simpl; [done|].
  destruct (is_ws c); simpl; lia.
Qed.

Lemma skip_ws_indent (level : nat) (s : string) :
  skip_ws (indent level +:+ s) = skip_ws s.
Proof.
  induction level as [|level IH]; [done|].
  cbn [indent]. rewrite append_assoc. exact IH.
Qed.

Lemma skip_ws_newline_indent (level : nat) (s : string) :
  skip_ws (newline_indent level +:+ s) = skip_ws s.
Proof. unfold newline_indent. rewrite append_cons. apply skip_ws_indent. Qed.

(** A string literal is read back, whatever its characters. *)
Lemma read_string_escape (s rest : string) :
  read_string (escape s +:+ String dquote rest) = Some (s, rest).
Proof.
  induction s as [|c s IH]; [done|].
  cbn [escape]. rewrite append_assoc.
  destruct c as [[] [] [] [] [] [] [] []];
    match goal with
    | |- context [escape_char ?c] =>
        let e := eval vm_compute in (escape_char c) in
        change (escape_char c) with e
    end;
    rewrite ?append_cons, ?append_nil; cbn; by rewrite IH.
Qed.

Lemma read_value_quote (fuel : nat) (s0 x rest : string) :
  skip_ws s0 = quote x +:+ rest →
  read_value (S fuel) s0 = Some (JString x, rest).
Proof.
  intros Hs0. cbn [read_value]. rewrite Hs0. unfold quote.
  rewrite append_cons, append_assoc, append_cons, append_nil.
  change (nat_of_ascii dquote =? 34) with true. cbn iota.
  by rewrite read_string_escape.
Qed.

Lemma solid_quote (x : string) : solid (quote x).
Proof. intros rest. reflexivity. Qed.

Lemma length_join_map {A} (f : A → string) (sep : string) (l : list A) :
  (∀ x, x ∈ l → 1 ≤ String.length (f x)) →
  length l ≤ String.length (Str.join sep (map f l)).
Proof.
  induction l as [|x l IH]; intros Hf; [done|].
  assert (1 ≤ String.length (f x)) by (apply Hf; left).
  assert (length l ≤ String.length (Str.join sep (map f l))).
  { apply IH. intros y Hy. apply Hf. by right. }
  destruct l as [|y l]; [simpl; lia|].
  change (Str.join sep (map f (x :: y :: l)))
    with (f x +:+ sep +:+ Str.join sep (map f (y :: l))).
  rewrite !length_append. simpl in *. lia.
Qed.

Section Steps.
Variable read : string → option (json * string).

Lemma read_items_more n s v s1 s2 :
  read s = Some (v, s1) → skip_ws s1 = String ","%char s2 →
  read_items read (S n) s =
  '(vs, s3) ← read_items read n s2; Some (v :: vs, s3).
Proof. intros Hv Hs1. cbn [read_items]. rewrite Hv. cbn. by rewrite Hs1. Qed.

Lemma read_items_last n s v s1 s2 :
  read s = Some (v, s1) → skip_ws s1 = String "]"%char s2 →
  read_items read (S n) s = Some ([v], s2).
Proof. intros Hv Hs1. cbn [read_items]. rewrite Hv. cbn. by rewrite Hs1. Qed.

Lemma read_members_more n s s0 k s1 s2 v s3 s4 :
  skip_ws s = String dquote s0 → read_string s0 = Some (k, s1) →
  skip_ws s1 = String ":"%char s2 → read s2 = Some (v, s3) →
  skip_ws s3 = String ","%char s4 →
  read_members read (S n) s =
  '(kvs, s5) ← read_members read n s4; Some ((k, v) :: kvs, s5).
Proof.
  intros Hs Hk Hs1 Hv Hs3. cbn [read_members]. rewrite Hs. cbn.
  rewrite Hk. cbn. rewrite Hs1, Hv. cbn. by rewrite Hs3.
Qed.

Lemma read_members_last n s s0 k s1 s2 v s3 s4 :
  skip_ws s = String dquote s0 → read_string s0 = Some (k, s1) →
  skip_ws s1 = String ":"%char s2 → read s2 = Some (v, s3) →
  skip_ws s3 = String "}"%char s4 →
  read_members read (S n) s = Some ([(k, v)], s4).
Proof.
  intros Hs Hk Hs1 Hv Hs3. cbn [read_members]. rewrite Hs. cbn.
  rewrite Hk. cbn. rewrite Hs1, Hv. cbn. by rewrite Hs3.
Qed.
End Steps.

Section Sequences.
Variable read : string → option (json * string).
Variable f : json → string.
Variable level : nat.

Lemma read_items_joined (items : list json) (n : nat) (rest : string) :
  (∀ x s0 rest', x ∈ items → skip_ws s0 = f x +:+ rest' → read s0 = Some (x, rest')) →
  (∀ x, x ∈ items → solid (f x)) →
  items ≠ [] → length items ≤ n →
  read_items read n
    (newline_indent (S level) +:+
     Str.join (item_separator level) (map f items) +:+
     newline_indent level +:+ String "]" rest)
  = Some (items, rest).
Proof.
  revert n. induction items as [|x items IH]; intros n Hread Hsolid Hne Hn; [done|].
  destruct n as [|n]; [simpl in Hn; lia|].
  destruct items as [|y items].
  - change (Str.join (item_separator level) (map f [x])) with (f x).
    eapply read_items_last.
    + apply Hread; [left|]. rewrite skip_ws_newline_indent. apply Hsolid. left.
    + by rewrite skip_ws_newline_indent.
  - change (Str.join (item_separator level) (map f (x :: y :: items)))
      with (f x +:+ item_separator level +:+
            Str.join (item_separator level) (map f (y :: items))).
    rewrite !append_assoc. unfold item_separator at 1. rewrite append_assoc.
    erewrite read_items_more.
    + rewrite IH; [done|..].
      * intros z s0 rest' Hz. apply Hread. by right.
      * intros z Hz. apply Hsolid. by right.
      * done.
      * simpl in *. lia.
    + apply Hread; [left|]. rewrite skip_ws_newline_indent. apply Hsolid. left.
    + reflexivity.
Qed.

Lemma member_text_eq k v tail :
  member_text f (k, v) +:+ tail =
  String dquote (escape k +:+ String dquote (String ":" (String " " (f v +:+ tail)))).
Proof.
  unfold member_text, quote.
  by repeat (rewrite append_assoc || rewrite append_cons || rewrite append_nil).
Qed.

Lemma read_members_joined (members : list (string * json)) (n : nat) (rest : string) :
  (∀ k v s0 rest', (k, v) ∈ members → skip_ws s0 = f v +:+ rest' →
     read s0 = Some (v, rest')) →
  (∀ k v, (k, v) ∈ members → solid (f v)) →
  members ≠ [] → length members ≤ n →
  read_members read n
    (newline_indent (S level) +:+
     Str.join (item_separator level) (map (member_text f) members) +:+
     newline_indent level +:+ String "}" rest)
  = Some (members, rest).
Proof.
  revert n. induction members as [|[k v] members IH]; intros n Hread Hsolid Hne Hn;
    [done|].
  destruct n as [|n]; [simpl in Hn; lia|].
  destruct members as [|kv members].
  - change (Str.join (item_separator level) (map (member_text f) [(k, v)]))
      with (member_text f (k, v)).
    eapply read_members_last.
    + rewrite skip_ws_newline_indent, member_text_eq. reflexivity.
    + apply read_string_escape.
    + reflexivity.
    + apply (Hread k); [left|]. cbn. apply (Hsolid k). left.
    + by rewrite skip_ws_newline_indent.
  - change (Str.join (item_separator level)
                    (map (member_text f) ((k, v) :: kv :: members)))
      with (member_text f (k, v) +:+ item_separator level +:+
            Str.join (item_separator level) (map (member_text f) (kv :: members))).
    erewrite read_members_more.
    + rewrite IH; [done|..].
      * intros k' v' s0 rest' Hkv. apply Hread with k'. by right.
      * intros k' v' Hkv. apply Hsolid with k'. by right.
      * done.
      * simpl in *. lia.
    + rewrite skip_ws_newline_indent, append_assoc, member_text_eq. reflexivity.
    + apply read_string_escape.
    + reflexivity.
    + apply (Hread k); [left|]. cbn. apply (Hsolid k). left.
    + unfold item_separator. rewrite !append_assoc. reflexivity.
Qed.
End Sequences.

Lemma dump_JArray level items :
  items ≠ [] →
  dump level (JArray items) =
  String "[" (newline_indent (S level) +:+
    Str.join (item_separator level) (map (dump (S level)) items) +:+
    newline_indent level +:+ "]").
Proof. by destruct items. Qed.

Lemma dump_JObject level members :
  members ≠ [] →
  dump level (JObject members) =
  String "{" (newline_indent (S level) +:+
    Str.join (item_separator level)
      (map (member_text (dump (S level))) members) +:+
    newline_indent level +:+ "}").
Proof. by destruct members. Qed.

Lemma solid_dump_JArray level items : solid (dump level (JArray items)).
Proof.
  intros rest. destruct items; [done|]. by rewrite dump_JArray.
Qed.

Lemma solid_dump_JObject level members : solid (dump level (JObject members)).
Proof.
  intros rest. destruct members; [done|]. by rewrite dump_JObject.
Qed.

Lemma solid_length t : solid t → 1 ≤ String.length t.
Proof.
  intros Ht. destruct t; [|simpl; lia]. by specialize (Ht " ").
Qed.

(** One step of the reader at an opening bracket or brace, when the text
    goes on with a string or an object. *)
Lemma read_value_array_step fuel s0 s1 c s2 :
  skip_ws s0 = String "[" s1 → skip_ws s1 = String c s2 →
  c = dquote ∨ c = "{"%char →
  read_value (S fuel) s0 =
  '(vs, rest) ← read_items (read_value fuel) (String.length s0) s1;
  Some (JArray vs, rest).
Proof.
  intros Hs0 Hs1 Hc. cbn [read_value]. rewrite Hs0. cbn. rewrite Hs1.
  by destruct Hc as [-> | ->].
Qed.

Lemma read_value_object_step fuel s0 s1 s2 :
  skip_ws s0 = String "{" s1 → skip_ws s1 = String dquote s2 →
  read_value (S fuel) s0 =
  '(kvs, rest) ← read_members (read_value fuel) (String.length s0) s1;
  Some (JObject (as_dict kvs), rest).
Proof. intros Hs0 Hs1. cbn [read_value]. rewrite Hs0. cbn. by rewrite Hs1. Qed.

Lemma read_value_empty_array fuel s0 rest :
  skip_ws s0 = String "[" (String "]" rest) →
  read_value (S fuel) s0 = Some (JArray [], rest).
Proof. intros Hs0. cbn [read_value]. by rewrite Hs0. Qed.

(** The first characters of a joined sequence are those of its first item. *)
Lemma join_cons_append {A} (f : A → string) sep x l tail :
  ∃ tail', Str.join sep (map f (x :: l)) +:+ tail = f x +:+ tail'.
Proof.
  destruct l as [|y l]; [by exists tail|].
  exists (sep +:+ Str.join sep (map f (y :: l)) +:+ tail).
  change (Str.join sep (map f (x :: y :: l)))
    with (f x +:+ sep +:+ Str.join sep (map f (y :: l))).
  by rewrite !append_assoc.
Qed.

Lemma read_value_strings fuel level (l : list string) s0 rest :
  skip_ws s0 = dump level (JArray (JString <$> l)) +:+ rest →
  read_value (S (S fuel)) s0 = Some (JArray (JString <$> l), rest).
Proof.
  intros Hs0. destruct l as [|x l].
  { by apply read_value_empty_array. }
  assert (length (JString <$> x :: l) ≤ String.length s0) as Hlen.
  { etrans; [|apply length_skip_ws]. rewrite Hs0, dump_JArray by done.
    rewrite append_cons. cbn [String.length]. rewrite !length_append.
    pose proof (length_join_map (dump (S level))
      (item_separator level) (JString <$> x :: l)) as Hjoin.
    etrans; [apply Hjoin|lia].
    intros j (y & -> & _)%list_elem_of_fmap. simpl. lia. }
  rewrite dump_JArray, append_cons, !append_assoc in Hs0 by done.
  change ("]" +:+ rest) with (String "]" rest) in Hs0.
  destruct (join_cons_append (dump (S level)) (item_separator level)
              (JString x) (JString <$> l)
              (newline_indent level +:+ String "]" rest)) as [tail Htail].
  erewrite read_value_array_step; [|exact Hs0| |by left].
  - rewrite (read_items_joined (read_value (S fuel)) (dump (S level)) level
               (JString <$> x :: l)); [done|..|done|done].
    + intros j s1 rest' (y & -> & _)%list_elem_of_fmap. apply read_value_quote.
    + intros j (y & -> & _)%list_elem_of_fmap. apply solid_quote.
  - rewrite skip_ws_newline_indent.
    change (JString <$> x :: l) with (JString x :: (JString <$> l)).
    rewrite Htail. reflexivity.
Qed.

Lemma read_value_user_dict fuel level (u : User) s0 rest :
  skip_ws s0 = dump level (Matcher.user_dict u) +:+ rest →
  read_value (S (S (S fuel))) s0 = Some (Matcher.user_dict u, rest).
Proof.
  intros Hs0. unfold Matcher.user_dict in *.
  assert (2 ≤ String.length s0) as Hlen.
  { etrans; [|apply length_skip_ws]. rewrite Hs0, dump_JObject by done.
    rewrite append_cons. cbn [String.length]. unfold newline_indent. simpl. lia. }
  rewrite dump_JObject, append_cons, !append_assoc in Hs0 by done.
  change ("}" +:+ rest) with (String "}" rest) in Hs0.
  erewrite read_value_object_step; [|exact Hs0|].
  - rewrite (read_members_joined (read_value (S (S fuel))) (dump (S level)) level
               [("name", JString (name u));
                ("top_artists", JArray (JString <$> top_artists u))]);
      [done|..|done|done].
    + intros k v s1 rest' Hkv Hs1. apply list_elem_of_In in Hkv.
      destruct Hkv as [[= <- <-]|[[= <- <-]|[]]].
      * by apply read_value_quote.
      * by apply (read_value_strings _ (S level)).
    + intros k v Hkv. apply list_elem_of_In in Hkv.
      destruct Hkv as [[= <- <-]|[[= <- <-]|[]]].
      * apply solid_quote.
      * apply solid_dump_JArray.
  - rewrite skip_ws_newline_indent. reflexivity.
Qed.

Lemma read_value_user_dicts fuel level (us : list User) s0 rest :
  skip_ws s0 = dump level (JArray (Matcher.user_dict <$> us)) +:+ rest →
  read_value (S (S (S (S fuel)))) s0 = Some (JArray (Matcher.user_dict <$> us), rest).
Proof.
  intros Hs0. destruct us as [|u us].
  { by apply read_value_empty_array. }
  assert (length (Matcher.user_dict <$> u :: us) ≤ String.length s0) as Hlen.
  { etrans; [|apply length_skip_ws]. rewrite Hs0, dump_JArray by done.
    rewrite append_cons. cbn [String.length]. rewrite !length_append.
    pose proof (length_join_map (dump (S level))
      (item_separator level) (Matcher.user_dict <$> u :: us)) as Hjoin.
    etrans; [apply Hjoin|lia].
    intros j (y & -> & _)%list_elem_of_fmap. apply solid_length, solid_dump_JObject. }
  rewrite dump_JArray, append_cons, !append_assoc in Hs0 by done.
  change ("]" +:+ rest) with (String "]" rest) in Hs0.
  destruct (join_cons_append (dump (S level)) (item_separator level)
              (Matcher.user_dict u) (Matcher.user_dict <$> us)
              (newline_indent level +:+ String "]" rest)) as [tail Htail].
  erewrite read_value_array_step; [|exact Hs0| |by right].
  - rewrite (read_items_joined (read_value (S (S (S fuel)))) (dump (S level)) level
               (Matcher.user_dict <$> u :: us)); [done|..|done|done].
    + intros j s1 rest' (y & -> & _)%list_elem_of_fmap.
      apply read_value_user_dict.
    + intros j (y & -> & _)%list_elem_of_fmap. apply solid_dump_JObject.
  - rewrite skip_ws_newline_indent.
    change (Matcher.user_dict <$> u :: us)
      with (Matcher.user_dict u :: (Matcher.user_dict <$> us)).
    rewrite Htail. unfold Matcher.user_dict at 1.
    rewrite dump_JObject, append_cons by done. reflexivity.
Qed.

Lemma read_value_to_dict fuel (self : Matcher.t) :
  read_value (S (S (S (S (S fuel))))) (dumps (Matcher.to_dict self))
  = Some (Matcher.to_dict self, EmptyString).
Proof.
  unfold dumps, Matcher.to_dict.
  assert (∀ t : string, t = t +:+ EmptyString) as Hnil.
  { intros t. induction t as [|c t IH]; [done|]. by rewrite append_cons, <-IH. }
  rewrite dump_JObject by done.
  erewrite read_value_object_step; [|reflexivity|].
  - rewrite (Hnil (newline_indent 0 +:+ "}")), append_assoc.
    change ("}" +:+ EmptyString) with (String "}" EmptyString).
    rewrite (read_members_joined (read_value (S (S (S (S fuel))))) (dump 1) 0
               [("users", JArray (Matcher.user_dict <$> Matcher.users self))]);
      [done|..|done|].
    + intros k v s1 rest' Hkv Hs1. apply list_elem_of_In in Hkv.
      destruct Hkv as [[= <- <-]|[]]. by apply (read_value_user_dicts _ 1).
    + intros k v Hkv. apply list_elem_of_In in Hkv.
      destruct Hkv as [[= <- <-]|[]]. apply solid_dump_JArray.
    + simpl. lia.
  - rewrite skip_ws_newline_indent. reflexivity.
Qed.

(** The reader returns the document of any Matcher from the text the writer
    made of it: with this reader and writer the round trip of the document
    holds for every store. *)
Lemma loads_dumps_to_dict (self : Matcher.t) :
  loads (dumps (Matcher.to_dict self)) = Return (Matcher.to_dict self).
Proof.
  unfold loads.
  assert (4 ≤ String.length (dumps (Matcher.to_dict self))) as Hlen.
  { unfold dumps, Matcher.to_dict. rewrite dump_JObject by done. simpl. lia. }
  destruct (String.length (dumps (Matcher.to_dict self)))
    as [|[|[|[|fuel]]]]; [lia..|].
  by rewrite read_value_to_dict.
Qed.
End JsonTextFacts.

(** ** The statements at concrete inputs *)

Lemma from_file_missing_path_raises_witness :
  files no_files !! "musicmatch.json" = None ∧
  Matcher.from_file JsonText.loads no_files "musicmatch.json" = Raise TypeError.
Proof.
  split; [reflexivity|].
  apply (from_file_missing_path_raises JsonText.loads no_files "musicmatch.json").
  reflexivity.
Defined.

Lemma add_user_preserves_unique_identities_witness :
  unique_identities (Matcher.users ann_and_bob) ∧
  unique_identities
    (Matcher.users
       (run (add_users [mkUser " BOB " ["Queen"]; mkUser "Cy" []]) ann_and_bob).2).
Proof.
  assert (unique_identities (Matcher.users ann_and_bob)) as Hstore.
  { unfold unique_identities. apply (bool_decide_unpack _). vm_compute. exact I. }
  split; [exact Hstore|].
  exact (proj2 (add_user_preserves_unique_identities ann_and_bob
                  [mkUser " BOB " ["Queen"]; mkUser "Cy" []] Hstore)).
Defined.

Lemma add_user_replaces_in_place_or_appends_witness :
  (∃ i, i ≤ 1 ∧
     Matcher.users (run (Matcher.add_user (mkUser " BOB " ["Queen"])) ann_and_bob).2
       !! i = Some (mkUser " BOB " ["Queen"]) ∧
     length (Matcher.users
               (run (Matcher.add_user (mkUser " BOB " ["Queen"])) ann_and_bob).2) = 2) ∧
  Matcher.users (run (Matcher.add_user (mkUser "Cy" [])) ann_and_bob).2 =
    Matcher.users ann_and_bob ++ [mkUser "Cy" []].
Proof.
  split.
  - destruct (proj1 (add_user_replaces_in_place_or_appends ann_and_bob
                       (mkUser " BOB " ["Queen"]))
                1 (mkUser "Bob" ["Muse"]) eq_refl eq_refl)
      as (i & Hi & _ & _ & _ & Hat & _ & Hlen & _).
    exists i. split; [exact Hi|]. split; [exact Hat|exact Hlen].
  - apply (proj2 (add_user_replaces_in_place_or_appends ann_and_bob (mkUser "Cy" []))).
    intros u Hu. apply list_elem_of_In in Hu. simpl in Hu.
    destruct Hu as [<-|[<-|[]]]; vm_compute; discriminate.
Defined.

Lemma match_truncates_to_top_k_witness :
  (Matcher.match_ (mkUser "Q" ["Muse"]) 1 ann_and_bob).1 =
    take 1 (ranked (mkUser "Q" ["Muse"]) ann_and_bob) ∧
  (Matcher.match_ (mkUser "Q" ["Muse"]) 7 ann_and_bob).1 =
    ranked (mkUser "Q" ["Muse"]) ann_and_bob ∧
  (Matcher.match_ (mkUser "Q" ["Muse"]) 0 ann_and_bob).1 = [] ∧
  length (Matcher.match_ (mkUser "Q" ["Muse"]) (-1) ann_and_bob).1 = 1.
Proof.
  split; [|split; [|split]].
  - apply (proj1 (match_truncates_to_top_k ann_and_bob (mkUser "Q" ["Muse"]) 1)).
    lia.
  - apply (proj1 (match_truncates_to_top_k ann_and_bob (mkUser "Q" ["Muse"]) 7));
      vm_compute; discriminate.
  - apply (proj1 (proj2 (match_truncates_to_top_k ann_and_bob (mkUser "Q" ["Muse"]) 0))).
    reflexivity.
  - apply (proj2 (proj2 (match_truncates_to_top_k ann_and_bob (mkUser "Q" ["Muse"]) (-1)))).
    lia.
Defined.

Lemma jaccard_similarity_is_jaccard_index_witness :
  jaccard_similarity ["aurora"; "coldplay"; "weeknd"] ["weeknd"; "bts"] = (1 # 4)%Q ∧
  jaccard_similarity ["weeknd"; "aurora"; "weeknd"; "coldplay"] ["bts"; "weeknd"; "bts"]
    = jaccard_similarity ["aurora"; "coldplay"; "weeknd"] ["weeknd"; "bts"].
Proof.
  split.
  - exact (proj1 (jaccard_similarity_is_jaccard_index
                    ["aurora"; "coldplay"; "weeknd"] ["weeknd"; "bts"])).
  - apply (proj2 (proj2 (proj2 (jaccard_similarity_is_jaccard_index
                    ["aurora"; "coldplay"; "weeknd"] ["weeknd"; "bts"])))).
    + intros x. rewrite !list_elem_of_In. simpl. tauto.
    + intros x. rewrite !list_elem_of_In. simpl. tauto.
Defined.

Lemma save_then_from_file_round_trip_witness :
  ∃ fs', Matcher.save JsonText.dumps blank_entries "users.json" no_files = Return fs' ∧
         Matcher.from_file JsonText.loads fs' "users.json" = Return blank_entries ∧
         ∀ m, Matcher.from_file JsonText.loads fs' "users.json" = Return m →
              Matcher.users m = Matcher.users blank_entries.
Proof.
  apply (save_then_from_file_round_trip JsonText.loads JsonText.dumps
           blank_entries "users.json" no_files).
  - vm_compute. reflexivity.
  - apply not_elem_of_empty.
Defined.


(** * Further properties *)

(** ** String methods *)

Lemma isspace_lower (c : ascii) : Str.isspace (Str.lower c) = Str.isspace c.
Proof. by destruct c as [[] [] [] [] [] [] [] []]. Qed.
















Lemma lstrip_empty_blank (s : string) : Str.lstrip s = EmptyString ↔ blank s = true.
Proof.
  induction s as [|c s IH]; simpl; [done|].
  destruct (Str.isspace c); simpl; [done|]. split; discriminate.
Qed.


















Lemma blank_casefold (s : string) : blank (Str.casefold s) = blank s.
Proof. induction s as [|c s IH]; simpl; [done|]. by rewrite isspace_lower, IH. Qed.














(** ** The normalizer *)








(** ** Similarity *)

Lemma truediv_pos (n m : nat) :
  0 < m → (truediv n m == Z.of_nat n # Pos.of_nat m)%Q.
Proof.
  intros Hm. unfold truediv, Qdiv, Qmult, Qinv, inject_Z, Qeq. simpl.
  destruct m as [|m]; [lia|]. simpl. lia.
Qed.

Lemma truediv_zero_iff (n m : nat) : 0 < m → (truediv n m == 0)%Q ↔ n = 0.
Proof.
  intros Hm. rewrite truediv_pos by done. unfold Qeq. simpl. lia.
Qed.

Lemma truediv_one_iff (n m : nat) : 0 < m → (truediv n m == 1)%Q ↔ n = m.
Proof.
  intros Hm. rewrite truediv_pos by done. unfold Qeq. simpl. lia.
Qed.

Lemma jaccard_similarity_unfold (a b : list string) :
  jaccard_similarity a b =
  if decide (a = [] ∧ b = []) then 0%Q
  else truediv (size ((list_to_set a : gset string) ∩ list_to_set b))
               (size ((list_to_set a : gset string) ∪ list_to_set b)).
Proof.
  unfold jaccard_similarity.
  destruct (decide (a = [] ∧ b = [])) as [[-> ->]|Hne]; [done|].
  destruct (bool_decide _ && bool_decide _) eqn:Hempty; [|done].
  apply andb_true_iff in Hempty as [Ha Hb].
  apply bool_decide_eq_true, list_to_set_nil_iff in Ha, Hb. by destruct Hne.
Qed.

Lemma size_union_pos (a b : list string) :
  ¬ (a = [] ∧ b = []) → 0 < size ((list_to_set a : gset string) ∪ list_to_set b).
Proof.
  intros Hne. destruct (size _) eqn:Hsize; [|lia].
  apply size_empty_iff in Hsize. apply leibniz_equiv in Hsize.
  apply empty_union_L in Hsize as [Ha%list_to_set_nil_iff Hb%list_to_set_nil_iff].
  by destruct Hne.
Qed.

(** X5: the similarity and the overlap count are symmetric. *)
Theorem jaccard_similarity_symmetric (a b : list string) :
  jaccard_similarity a b = jaccard_similarity b a ∧
  overlap_count a b = overlap_count b a.
Proof.
  unfold jaccard_similarity, overlap_count.
  rewrite (comm_L (∩) (list_to_set a : gset string)),
          (comm_L (∪) (list_to_set a : gset string)).
  by rewrite andb_comm.
Qed.

(** X6: the score is 0 exactly when the two lists have no string in common,
    and 1 exactly when they hold the same strings and are not empty; a list
    that is not empty has similarity 1 with itself. *)
Theorem jaccard_similarity_extremes (a b : list string) :
  ((jaccard_similarity a b == 0)%Q ↔ ∀ x, x ∈ a → x ∉ b) ∧
  ((jaccard_similarity a b == 1)%Q ↔ a ≠ [] ∧ ∀ x, x ∈ a ↔ x ∈ b) ∧
  (a ≠ [] → (jaccard_similarity a a == 1)%Q).
Proof.
  assert (∀ a b : list string,
    (jaccard_similarity a b == 1)%Q ↔ a ≠ [] ∧ ∀ x, x ∈ a ↔ x ∈ b) as Hone.
  { clear. intros a b. rewrite jaccard_similarity_unfold.
    destruct (decide (a = [] ∧ b = [])) as [[-> ->]|Hne].
    { split; [discriminate|]. by intros [? _]. }
    rewrite truediv_one_iff by by apply size_union_pos. split.
    - intros Hsize.
      assert ((list_to_set a : gset string) ∩ list_to_set b =
              (list_to_set a : gset string) ∪ list_to_set b) as Heq.
      { apply set_subseteq_size_eq; [|lia].
        etrans; [apply intersection_subseteq_l|apply union_subseteq_l]. }
      assert (∀ x, x ∈ a ↔ x ∈ b) as Hab.
      { intros x. rewrite <-!(elem_of_list_to_set (C:=gset string)). split; intros Hx.
        - assert (x ∈ (list_to_set a : gset string) ∪ list_to_set b) as Hu
            by (apply elem_of_union; by left).
          rewrite <-Heq in Hu. by apply elem_of_intersection in Hu as [_ ?].
        - assert (x ∈ (list_to_set a : gset string) ∪ list_to_set b) as Hu
            by (apply elem_of_union; by right).
          rewrite <-Heq in Hu. by apply elem_of_intersection in Hu as [? _]. }
      split; [|done]. intros ->. apply Hne. split; [done|].
      destruct b as [|y b]; [done|]. exfalso.
      apply (elem_of_nil y), Hab. left.
    - intros [_ Hab]. rewrite (list_to_set_same_elements a b Hab).
      by rewrite (idemp_L (∩)), (idemp_L (∪)). }
  split; [|split; [apply Hone|]].
  - rewrite jaccard_similarity_unfold.
    destruct (decide (a = [] ∧ b = [])) as [[-> ->]|Hne].
    { split; [|done]. intros _ x Hx. by apply elem_of_nil in Hx. }
    rewrite truediv_zero_iff by by apply size_union_pos.
    rewrite size_empty_iff. split.
    + intros Hempty x Ha Hb. apply (not_elem_of_empty (C:=gset string) x).
      rewrite <-Hempty. apply elem_of_intersection.
      by rewrite !elem_of_list_to_set.
    + intros Hdisj. apply elem_of_equiv_empty. intros x.
      rewrite elem_of_intersection, !elem_of_list_to_set. intros [Ha Hb].
      by apply (Hdisj x).
  - intros Ha. by apply Hone.
Qed.

(** X7: the overlap count is the number of distinct strings of the first
    list that occur in the second; it is at most the length of either list,
    and 0 exactly when the lists have no string in common. *)
Theorem overlap_count_counts_common_strings (a b : list string) :
  overlap_count a b = length (filter (.∈ b) (remove_dups a)) ∧
  overlap_count a b ≤ length a ∧
  overlap_count a b ≤ length b ∧
  (overlap_count a b = 0 ↔ ∀ x, x ∈ a → x ∉ b).
Proof.
  assert (∀ l : list string, size (list_to_set l : gset string) ≤ length l) as Hsize.
  { induction l as [|x l IH]; [done|].
    rewrite list_to_set_cons, size_union_alt, size_singleton. simpl.
    apply le_n_S. etrans; [|exact IH]. apply subseteq_size, subseteq_difference_l.
    done. }
  unfold overlap_count. split; [apply size_intersection_lists|].
  split; [|split].
  - etrans; [apply subseteq_size, intersection_subseteq_l|apply Hsize].
  - etrans; [apply subseteq_size, intersection_subseteq_r|apply Hsize].
  - rewrite size_empty_iff. split.
    + intros Hempty x Ha Hb. apply (not_elem_of_empty (C:=gset string) x).
      rewrite <-Hempty. apply elem_of_intersection.
      by rewrite !elem_of_list_to_set.
    + intros Hdisj. apply elem_of_equiv_empty. intros x.
      rewrite elem_of_intersection, !elem_of_list_to_set. intros [Ha Hb].
      by apply (Hdisj x).
Qed.

(** ** Upsert, further *)

Lemma add_user_scan_identity i us u1 u2 :
  identity u1 = identity u2 →
  Matcher.add_user_scan i us u1 = Matcher.add_user_scan i us u2.
Proof.
  intros H12. revert i. induction us as [|u us IH]; intros i; simpl; [done|].
  fold (identity u) (identity u1) (identity u2). rewrite H12.
  case_decide; [done|apply IH].
Qed.

Lemma add_user_scan_first i us user k u :
  us !! k = Some u → identity u = identity user →
  (∀ k' u', k' < k → us !! k' = Some u' → identity u' ≠ identity user) →
  Matcher.add_user_scan i us user = Some (i + k).
Proof.
  revert i k. induction us as [|v us IH]; intros i k Hk Hu Hfirst; [done|].
  simpl. fold (identity v) (identity user). destruct k as [|k].
  - simpl in Hk. injection Hk as ->. rewrite decide_True by done. f_equal. lia.
  - rewrite decide_False by (apply (Hfirst 0 v); [lia|done]).
    rewrite (IH (S i) k); [f_equal; lia|done|done|].
    intros k' u' Hlt. apply (Hfirst (S k')). lia.
Qed.

(** X8: the last write wins. Adding a record and then a record with the
    same identity leaves the store as adding the second alone would; in
    particular adding the same record twice is the same as adding it once. *)
Theorem add_user_last_write_wins (self : Matcher.t) (u1 u2 : User) :
  Str.casefold (Str.strip (name u1)) = Str.casefold (Str.strip (name u2)) →
  (run (Matcher.add_user u2) (run (Matcher.add_user u1) self).2).2 =
  (run (Matcher.add_user u2) self).2.
Proof.
  intros H12. fold (identity u1) (identity u2) in H12.
  assert (∀ m m' : Matcher.t, Matcher.users m = Matcher.users m' → m = m') as Hext.
  { intros [us] [us']. simpl. by intros ->. }
  apply Hext. rewrite !add_user_users.
  rewrite <-(add_user_scan_identity 0 (Matcher.users self) u1 u2) by done.
  destruct (Matcher.add_user_scan 0 (Matcher.users self) u1) as [i|] eqn:Hscan.
  - apply add_user_scan_Some in Hscan as (k & u & -> & Hk & Hu & Hfirst). simpl.
    pose proof (lookup_lt_Some _ _ _ Hk) as Hlt.
    rewrite (add_user_scan_first 0 _ u2 k u1).
    + simpl. by rewrite list_insert_insert_eq.
    + by apply list_lookup_insert_eq.
    + done.
    + intros k' u' Hk'. rewrite list_lookup_insert_ne by lia.
      rewrite <-H12. by apply Hfirst.
  - simpl. rewrite (add_user_scan_first 0 _ u2 (length (Matcher.users self)) u1).
    + simpl. rewrite insert_app_r_alt, Nat.sub_diag by done. done.
    + by rewrite lookup_app_r, Nat.sub_diag by done.
    + done.
    + intros k' u' Hk'. rewrite lookup_app_l by done. intros Hu'.
      rewrite <-H12. eapply add_user_scan_None; [exact Hscan|].
      by eapply list_elem_of_lookup_2.
Qed.

(** X9: [add_user] never removes or moves the record of another identity
    and adds at most one record; afterwards the first record with the
    identity of [user] is [user] itself, and every record is [user] or was
    there before. *)
Theorem add_user_keeps_other_records (self : Matcher.t) (user : User) :
  let us := Matcher.users self in
  let us' := Matcher.users (run (Matcher.add_user user) self).2 in
  length us ≤ length us' ≤ S (length us) ∧
  (∃ k, us' !! k = Some user ∧
        ∀ k' u', k' < k → us' !! k' = Some u' → identity u' ≠ identity user) ∧
  (∀ i u, us !! i = Some u → identity u ≠ identity user → us' !! i = Some u) ∧
  (∀ u, u ∈ us' → u = user ∨ u ∈ us).
Proof.
  intros us us'. subst us'. rewrite add_user_users. fold us.
  destruct (Matcher.add_user_scan 0 us user) as [i|] eqn:Hscan.
  - apply add_user_scan_Some in Hscan as (k & u & -> & Hk & Hu & Hfirst). simpl.
    pose proof (lookup_lt_Some _ _ _ Hk) as Hlt.
    rewrite length_insert. split; [lia|]. split; [|split].
    + exists k. split; [by apply list_lookup_insert_eq|].
      intros k' u' Hk'. rewrite list_lookup_insert_ne by lia. by apply Hfirst.
    + intros i v Hi Hv. rewrite list_lookup_insert_ne; [done|].
      intros ->. rewrite Hk in Hi. injection Hi as ->. done.
    + intros v (j & Hj)%list_elem_of_lookup_1.
      destruct (decide (k = j)) as [->|Hne].
      * rewrite list_lookup_insert_eq in Hj by done. left. congruence.
      * rewrite list_lookup_insert_ne in Hj by done. right.
        by eapply list_elem_of_lookup_2.
  - rewrite length_app. simpl. split; [lia|]. split; [|split].
    + exists (length us). split; [by rewrite lookup_app_r, Nat.sub_diag|].
      intros k' u' Hk'. rewrite lookup_app_l by done. intros Hu'.
      eapply add_user_scan_None; [exact Hscan|]. by eapply list_elem_of_lookup_2.
    + intros i v Hi _. by apply lookup_app_l_Some.
    + intros v [Hv|Hv%list_elem_of_singleton]%elem_of_app; [by right|by left].
Qed.


(** ** Ranking, further *)

Lemma candidates_score_entry query self :
  candidates query self =
  score_entry query <$> filter (λ u, identity u ≠ identity query) (Matcher.users self).
Proof.
  destruct self as [us]. induction us as [|u us IH]; [done|].
  rewrite candidates_cons, IH. simpl. unfold Matcher.match_step.
  fold (identity u) (identity query).
  destruct (decide (identity u = identity query)) as [Hu|Hu].
  - by rewrite filter_cons_False by (by intros ?).
  - by rewrite filter_cons_True by done.
Qed.

Section Stability.
Context {A K : Type} (lt : K → K → bool) (key : A → K).
Context (P : A → Prop) `{!∀ x, Decision (P x)}.
Hypothesis tied : ∀ x y, P x → P y → lt (key x) (key y) = false.

Lemma insert_reverse_filter x l :
  filter P (insert_reverse lt key x l) = filter P (x :: l).
Proof.
  induction l as [|y l IH]; [done|]. simpl.
  destruct (lt (key x) (key y)) eqn:Hxy; [|done].
  destruct (decide (P y)) as [Hy|Hy].
  - assert (¬ P x) as Hx by (intros Hx; by rewrite (tied x y) in Hxy).
    rewrite (filter_cons_True _ y) by done. rewrite IH.
    by rewrite !(filter_cons_False _ x), (filter_cons_True _ y) by done.
  - rewrite (filter_cons_False _ y) by done. rewrite IH.
    destruct (decide (P x)).
    + by rewrite !(filter_cons_True _ x), (filter_cons_False _ y) by done.
    + by rewrite !(filter_cons_False _ x), (filter_cons_False _ y) by done.
Qed.

(** Items none of which has its key below another's keep their order. *)
Lemma sort_reverse_filter l : filter P (sort_reverse lt key l) = filter P l.
Proof.
  induction l as [|x l IH]; [done|]. simpl.
  rewrite insert_reverse_filter.
  destruct (decide (P x)).
  - by rewrite !(filter_cons_True _ x), IH by done.
  - by rewrite !(filter_cons_False _ x), IH by done.
Qed.
End Stability.

Lemma no_rise_score_le (x y : entry) : no_rise key_lt sort_key x y → score_le y x.
Proof.
  unfold no_rise, key_lt, score_le, sort_key. simpl.
  destruct (x.1.2 ?= y.1.2)%Q eqn:Hc; intros Hlt.
  - apply Qeq_alt in Hc. rewrite Hc. apply Qle_refl.
  - done.
  - apply Qgt_alt in Hc. by apply Qlt_le_weak.
Qed.

Lemma Sorted_impl {A} (R R' : relation A) (l : list A) :
  (∀ x y, R x y → R' x y) → Sorted R l → Sorted R' l.
Proof.
  intros HRR'. induction 1 as [|x l Hl IH Hx]; constructor; [done|].
  destruct Hx; constructor. by apply HRR'.
Qed.

Lemma ranked_scores_descend query self :
  StronglySorted (flip score_le) (ranked query self).
Proof.
  apply Sorted_StronglySorted.
  - intros x y z Hxy Hyz. unfold flip, score_le in *. by eapply Qle_trans.
  - eapply Sorted_impl; [|apply sort_reverse_Sorted, key_lt_asym].
    intros x y. apply no_rise_score_le.
Qed.

Lemma StronglySorted_take {A} (R : relation A) (l : list A) (n : nat) :
  StronglySorted R l → StronglySorted R (take n l).
Proof.
  intros Hl. revert n. induction Hl as [|x l Hl IH Hx]; intros [|n]; simpl;
    try constructor; [done|].
  by apply Forall_take.
Qed.

Lemma take_head {A} (l : list A) (n : nat) (x : A) (r : list A) :
  take n l = x :: r → ∃ r', l = x :: r'.
Proof. destruct l, n; simpl; try done. intros [= -> _]. by eexists. Qed.

Lemma slice_to_head {A} (l : list A) (k : Z) (x : A) (r : list A) :
  slice_to l k = x :: r → ∃ r', l = x :: r'.
Proof. unfold slice_to. destruct (k <? 0)%Z; apply take_head. Qed.

(** X10: every entry [(u, score, shared)] that [match] returns belongs to a
    stored record [u]: [score] is the similarity of the two normalized
    artist lists and lies in [0, 1]; [shared] lists the artists that occur
    in both normalized lists, each once, in ascending order; and the score
    is 0 exactly when [shared] is empty. *)
Theorem match_entries_well_formed (self : Matcher.t) (query : User) (top_k : Z) :
  Forall (λ x : entry,
            let q_art := normalized_artists query in
            let u_art := normalized_artists x.1.1 in
            x.1.1 ∈ Matcher.users self ∧
            x.1.2 = jaccard_similarity q_art u_art ∧
            (0 <= x.1.2 <= 1)%Q ∧
            (∀ a, a ∈ x.2 ↔ a ∈ q_art ∧ a ∈ u_art) ∧
            NoDup x.2 ∧ Sorted String.le x.2 ∧
            length x.2 = overlap_count q_art u_art ∧
            ((x.1.2 == 0)%Q ↔ x.2 = []))
         (Matcher.match_ query top_k self).1.
Proof.
  rewrite match_result. apply slice_to_Forall. rewrite ranked_Permutation.
  rewrite candidates_score_entry. apply Forall_fmap, Forall_forall.
  intros u [_ Hu]%list_elem_of_filter. unfold score_entry. simpl.
  set (q_art := normalized_artists query). set (u_art := normalized_artists u).
  assert (∀ a, a ∈ sorted ((list_to_set q_art : gset string) ∩ list_to_set u_art)
               ↔ a ∈ q_art ∧ a ∈ u_art) as Hin.
  { intros a. by rewrite elem_of_sorted, elem_of_intersection, !elem_of_list_to_set. }
  split; [done|]. split; [done|]. split; [|split; [done|split; [|split; [|split]]]].
  - rewrite jaccard_similarity_unfold. case_decide; [split; discriminate|].
    apply truediv_bounds, subseteq_size.
    etrans; [apply intersection_subseteq_l|apply union_subseteq_l].
  - rewrite sorted_Permutation. apply NoDup_elements.
  - apply sorted_ascending.
  - apply length_sorted.
  - rewrite jaccard_similarity_unfold.
    destruct (decide (q_art = [] ∧ u_art = [])) as [[Hq Hu']|Hne].
    + split; [|done]. intros _. apply elem_of_nil_inv. intros a [Ha _]%Hin.
      rewrite Hq in Ha. by apply elem_of_nil in Ha.
    + rewrite truediv_zero_iff by by apply size_union_pos.
      rewrite <-length_sorted. split; [apply nil_length_inv|by intros ->].
Qed.

(** X11: without truncation [match] ranks every stored record of another
    identity than the query exactly once. The candidates are those records
    in the order of the store, the ranking is a rearrangement of them, and a
    call with [top_k] at least the size of the store returns them all. *)
Theorem match_ranks_every_other_record (self : Matcher.t) (query : User) (top_k : Z) :
  (Z.of_nat (length (Matcher.users self)) ≤ top_k)%Z →
  let others := filter (λ u, identity u ≠ identity query) (Matcher.users self) in
  let result := (Matcher.match_ query top_k self).1 in
  (λ x : entry, x.1.1) <$> candidates query self = others ∧
  (λ x : entry, x.1.1) <$> result ≡ₚ others ∧
  result ≡ₚ score_entry query <$> others ∧
  length result = length others.
Proof.
  intros Hk others result.
  assert ((λ x : entry, x.1.1) <$> candidates query self = others) as Hcand.
  { rewrite candidates_score_entry, <-list_fmap_compose. apply list_fmap_id. }
  assert (result = ranked query self) as ->.
  { subst result. rewrite match_result, slice_to_nonneg by lia. apply take_ge.
    unfold ranked. rewrite length_sort_reverse, candidates_score_entry, length_fmap.
    pose proof (length_filter (λ u, identity u ≠ identity query) (Matcher.users self)).
    lia. }
  split; [done|]. split; [|split].
  - by rewrite ranked_Permutation, Hcand.
  - by rewrite ranked_Permutation, candidates_score_entry.
  - by rewrite ranked_Permutation, candidates_score_entry, length_fmap.
Qed.

Lemma string_compare_refl (s : string) : (s ?= s)%string = Eq.
Proof.
  induction s as [|c s IH]; simpl; [done|].
  unfold Ascii.compare. by rewrite N.compare_refl.
Qed.

Lemma same_key_tied (k k1 k2 : Q * nat * string) :
  same_key k1 k = true → same_key k2 k = true → key_lt k1 k2 = false.
Proof.
  unfold same_key, key_lt.
  intros [[Hs1 Hn1]%andb_true_iff Hc1%bool_decide_eq_true]%andb_true_iff
         [[Hs2 Hn2]%andb_true_iff Hc2%bool_decide_eq_true]%andb_true_iff.
  apply Qeq_bool_iff in Hs1, Hs2. apply Nat.eqb_eq in Hn1, Hn2.
  assert (k1.1.1 == k2.1.1)%Q as Hs by (by rewrite Hs1, Hs2).
  apply Qeq_alt in Hs. rewrite Hs, Hn1, Hn2, Nat.compare_refl, Hc1, Hc2.
  unfold String.ltb. by rewrite string_compare_refl.
Qed.

(** X12: ties keep the order of the store. The entries that agree with a
    given key in score, shared count and case-folded name stand in the
    ranking in the order in which their records stand in the store. *)
Theorem match_ties_keep_store_order
    (self : Matcher.t) (query : User) (k : Q * nat * string) :
  filter (λ x, same_key (sort_key x) k = true) (ranked query self) =
  filter (λ x, same_key (sort_key x) k = true)
    (score_entry query <$>
     filter (λ u, identity u ≠ identity query) (Matcher.users self)).
Proof.
  unfold ranked. rewrite sort_reverse_filter.
  - by rewrite candidates_score_entry.
  - intros x y Hx Hy. by apply (same_key_tied k).
Qed.

Lemma score_entry_query (q1 q2 u : User) :
  (∀ a, a ∈ normalized_artists q1 ↔ a ∈ normalized_artists q2) →
  score_entry q1 u = score_entry q2 u.
Proof.
  intros Hq. unfold score_entry, jaccard_similarity.
  by rewrite (list_to_set_same_elements _ _ Hq).
Qed.

(** X13: the result depends on the query only through its identity and the
    set of its normalized artists: two queries with the same identity whose
    artist lists normalize to the same strings, in whatever order and
    however often repeated, get the same result. *)
Theorem match_depends_on_query_identity_and_artist_set
    (self : Matcher.t) (q1 q2 : User) (top_k : Z) :
  Str.casefold (Str.strip (name q1)) = Str.casefold (Str.strip (name q2)) →
  (∀ a, a ∈ normalized_artists q1 ↔ a ∈ normalized_artists q2) →
  (Matcher.match_ q1 top_k self).1 = (Matcher.match_ q2 top_k self).1.
Proof.
  intros Hid Hart. fold (identity q1) (identity q2) in Hid.
  rewrite !match_result. unfold ranked. rewrite !candidates_score_entry.
  rewrite Hid. f_equal. f_equal. apply list_fmap_ext.
  intros _ u _. by apply score_entry_query.
Qed.

(** X14: scores never rise along the result, and when the result is not
    empty its first entry has the highest score of all candidates, those cut
    off by [top_k] included. *)
Theorem match_first_entry_has_top_score
    (self : Matcher.t) (query : User) (top_k : Z) :
  StronglySorted (flip score_le) (Matcher.match_ query top_k self).1 ∧
  ∀ first rest, (Matcher.match_ query top_k self).1 = first :: rest →
    ∀ u, u ∈ Matcher.users self → identity u ≠ identity query →
      (jaccard_similarity (normalized_artists query) (normalized_artists u)
       <= first.1.2)%Q.
Proof.
  rewrite match_result. split.
  - unfold slice_to. destruct (top_k <? 0)%Z;
      apply StronglySorted_take, ranked_scores_descend.
  - intros first rest [rest' Hranked]%slice_to_head u Hu Hid.
    pose proof (ranked_scores_descend query self) as Hsorted.
    rewrite Hranked in Hsorted. apply StronglySorted_inv in Hsorted as [_ Hall].
    assert (score_entry query u ∈ ranked query self) as Hin.
    { rewrite ranked_Permutation, candidates_score_entry.
      apply list_elem_of_fmap_2, list_elem_of_filter. done. }
    rewrite Hranked in Hin. apply elem_of_cons in Hin as [<-|Hin].
    + apply Qle_refl.
    + rewrite Forall_forall in Hall. apply (Hall _ Hin).
Qed.

(** X15: a record added with [add_user] is ranked for every query of
    another identity, with its similarity to that query. *)
Theorem add_user_then_match_ranks_new_record
    (self : Matcher.t) (user query : User) (top_k : Z) :
  Str.casefold (Str.strip (name user)) ≠ Str.casefold (Str.strip (name query)) →
  let self' := (run (Matcher.add_user user) self).2 in
  (Z.of_nat (length (Matcher.users self')) ≤ top_k)%Z →
  score_entry query user ∈ (Matcher.match_ query top_k self').1.
Proof.
  intros Hid self' Hk. fold (identity user) (identity query) in Hid.
  rewrite match_result, slice_to_nonneg by lia.
  rewrite take_ge.
  - rewrite ranked_Permutation, candidates_score_entry.
    apply list_elem_of_fmap_2, list_elem_of_filter. split; [done|].
    subst self'. rewrite add_user_users.
    destruct (Matcher.add_user_scan 0 (Matcher.users self) user) as [i|] eqn:Hscan.
    + apply add_user_scan_Some in Hscan as (k & u & -> & Hk' & _).
      eapply list_elem_of_lookup_2. apply list_lookup_insert_eq.
      by eapply lookup_lt_Some.
    + apply elem_of_app. right. by left.
  - unfold ranked. rewrite length_sort_reverse, candidates_score_entry, length_fmap.
    pose proof (length_filter (λ u, identity u ≠ identity query) (Matcher.users self')).
    lia.
Qed.

Lemma filter_insert_excluded {A} (P : A → Prop) `{!∀ x, Decision (P x)}
    (l : list A) (i : nat) (x y : A) :
  l !! i = Some y → ¬ P y → ¬ P x → filter P (<[i := x]> l) = filter P l.
Proof.
  intros Hi Hy Hx. pose proof (lookup_lt_Some _ _ _ Hi) as Hlt.
  rewrite insert_take_drop by done.
  rewrite <-(take_drop_middle l i y Hi) at 3.
  rewrite !filter_app. by rewrite !filter_cons_False by done.
Qed.

(** X16: adding the query user to the store does not change their matches:
    after [add_user] of a record with the identity of the query, [match]
    returns for that query what it returned before. *)
Theorem add_user_of_query_keeps_matches
    (self : Matcher.t) (user query : User) (top_k : Z) :
  Str.casefold (Str.strip (name user)) = Str.casefold (Str.strip (name query)) →
  (Matcher.match_ query top_k (run (Matcher.add_user user) self).2).1 =
  (Matcher.match_ query top_k self).1.
Proof.
  intros Hid. fold (identity user) (identity query) in Hid.
  rewrite !match_result. unfold ranked. rewrite !candidates_score_entry.
  do 3 f_equal. rewrite add_user_users.
  destruct (Matcher.add_user_scan 0 (Matcher.users self) user) as [i|] eqn:Hscan.
  - apply add_user_scan_Some in Hscan as (k & u & -> & Hk & Hu & _). simpl.
    apply (filter_insert_excluded _ _ k user u); [done|..].
    + intros Hne. apply Hne. by rewrite Hu.
    + intros Hne. by apply Hne.
  - rewrite filter_app, filter_cons_False, filter_nil, app_nil_r; [done|].
    intros Hne. by apply Hne.
Qed.

(** ** Persistence, further *)

(** X17: [to_dict] loses nothing: two Matchers with the same document hold
    the same records in the same order. *)
Theorem to_dict_injective (m1 m2 : Matcher.t) :
  Matcher.to_dict m1 = Matcher.to_dict m2 ↔ m1 = m2.
Proof.
  split; [|by intros ->]. destruct m1 as [us1], m2 as [us2].
  unfold Matcher.to_dict. simpl. intros [= Hus]. f_equal.
  revert us2 Hus. induction us1 as [|u1 us1 IH]; intros [|u2 us2]; try done.
  rewrite !fmap_cons. intros [= Hn Ha Hus]. f_equal; [|by apply IH].
  destruct u1 as [n1 a1], u2 as [n2 a2]. simpl in *. subst. f_equal.
  clear -Ha. revert a2 Ha. induction a1 as [|x a1 IH]; intros [|y a2]; try done.
  rewrite !fmap_cons. intros [= -> Ha]. f_equal. by apply IH.
Qed.

Lemma user_of_dict_reads_as (e : json) (u : User) :
  reads_as e u → Matcher.user_of_dict e = Return u.
Proof.
  intros (members & -> & Hn & Ha). destruct u as [n a]. simpl in *.
  unfold Matcher.user_of_dict, py_get. cbn -[as_str_list].
  rewrite Hn, Ha. cbn -[as_str_list]. by rewrite as_str_list_strings.
Qed.

Lemma for_each_reads_as (entries : list json) (us : list User) :
  Forall2 reads_as entries us → for_each Matcher.user_of_dict entries = Return us.
Proof.
  induction 1 as [|e u entries us He _ IH]; [done|].
  cbn [for_each]. by rewrite (user_of_dict_reads_as e u), IH.
Qed.

Section PersistenceFurther.
Variable json_load : string → outcome json.
Variable json_dump : json → string.

(** X18: the read is permissive. When the file holds a dict, a missing
    ["users"] key stands for no entries, and an entry that is a dict loads
    with the empty string for a missing ["name"] and the empty list for a
    missing ["top_artists"]; other keys are ignored. The Matcher holds one
    record per entry, in the order of the file. *)
Theorem from_file_defaults_for_missing_keys
    (fs : filesystem) (path text : string) (members : list (string * json))
    (entries : list json) (us : list User) :
  files fs !! path = Some text →
  json_load text = Return (JObject members) →
  default (JArray []) (dict_lookup members "users") = JArray entries →
  Forall2 reads_as entries us →
  Matcher.from_file json_load fs path = Return (Matcher.mk us).
Proof.
  intros Hpath Htext Husers Hentries. unfold Matcher.from_file.
  rewrite Hpath, Htext. cbn -[for_each]. rewrite Husers. cbn -[for_each].
  rewrite (for_each_reads_as entries us Hentries). cbn. by destruct us.
Qed.

(** X19: how [from_file] fails on a file that holds JSON of another shape.
    A document that is no dict raises [AttributeError]; a ["users"] value
    that is [null], a boolean or a number raises [TypeError]; a ["users"]
    list whose first entry is no dict, or a ["users"] value that is a
    non-empty string or dict, raises [AttributeError]; an empty string or
    dict under ["users"] gives an empty Matcher. *)
Theorem from_file_wrong_shape
    (fs : filesystem) (path text : string) (doc : json) :
  files fs !! path = Some text →
  json_load text = Return doc →
  ((∀ members, doc ≠ JObject members) →
     Matcher.from_file json_load fs path = Raise AttributeError) ∧
  (∀ members v, doc = JObject members → dict_lookup members "users" = Some v →
     match v with
     | JNull | JBool _ | JNumber _ =>
         Matcher.from_file json_load fs path = Raise TypeError
     | JString EmptyString | JObject [] | JArray [] =>
         Matcher.from_file json_load fs path = Return (Matcher.mk [])
     | JString (String _ _) | JObject (_ :: _) =>
         Matcher.from_file json_load fs path = Raise AttributeError
     | JArray (e :: _) =>
         (∀ ms, e ≠ JObject ms) →
         Matcher.from_file json_load fs path = Raise AttributeError
     end).
Proof.
  intros Hpath Htext. unfold Matcher.from_file. rewrite Hpath, Htext. split.
  - intros Hdoc. destruct doc as [| | | | |ms]; try done. by destruct (Hdoc ms).
  - intros members v -> Hv. cbn -[for_each]. rewrite Hv.
    destruct v as [| | |s|items|ms]; try done.
    + by destruct s.
    + destruct items as [|e items]; [done|]. intros He.
      destruct e as [| | | | |ms]; try done. by destruct (He ms).
    + by destruct ms as [|[k v] ms].
Qed.
End PersistenceFurther.

(** ** The selection screen *)

Lemma add_artist_state (ev : Gui.event) (s : Gui.state) :
  (run (Gui.add_artist ev) s).2 =
  let artist := Gui.listbox_get (Gui.widget ev) (Gui.nearest ev) in
  if decide ((artist ∉ Gui.selected_artists s) ∧ length (Gui.selected_artists s) < 5)
  then Gui.mkState (Gui.selected_artists s ++ [artist])
         ("Selected: " +:+ Str.join ", " (Gui.selected_artists s ++ [artist]))
         (Gui.result_label s)
  else s.
Proof.
  unfold run, Gui.add_artist, mbind, State_bind, get. simpl.
  by case_decide.
Qed.

Lemma clicks_cons (ev : Gui.event) (evs : list Gui.event) (s : Gui.state) :
  (run (Gui.clicks (ev :: evs)) s).2 =
  (run (Gui.clicks evs) (run (Gui.add_artist ev) s).2).2.
Proof.
  unfold run. simpl. unfold mbind, State_bind.
  by destruct (Gui.add_artist ev s).
Qed.

Lemma add_artist_screen_ok (ev : Gui.event) (s0 s : Gui.state) :
  screen_ok s0 s → screen_ok s0 (run (Gui.add_artist ev) s).2.
Proof.
  intros (Hnd & Hlen & Hpre & Hlabel & Hres). rewrite add_artist_state. simpl.
  case_decide as Hadd; [|done]. destruct Hadd as [Hnew Hroom].
  split; [|split; [|split; [|split]]]; simpl.
  - apply NoDup_app. split; [done|]. split; [|apply NoDup_singleton].
    intros x Hx ->%list_elem_of_singleton. done.
  - rewrite length_app. simpl. lia.
  - etrans; [exact Hpre|]. by apply prefix_app_r.
  - by right.
  - done.
Qed.

Lemma clicks_screen_ok (evs : list Gui.event) (s0 s : Gui.state) :
  screen_ok s0 s → screen_ok s0 (run (Gui.clicks evs) s).2.
Proof.
  revert s. induction evs as [|ev evs IH]; intros s Hs; [done|].
  rewrite clicks_cons. by apply IH, add_artist_screen_ok.
Qed.

(** X21: clicking never selects an artist twice and never selects more than
    five. From a screen with at most five distinct selected artists, any run
    of clicks leaves at most five distinct artists selected, keeps the
    earlier selection as the beginning of the new one, shows the selection
    in the label as soon as it has changed, and leaves the result label
    alone. *)
Theorem clicks_keep_selection_distinct_and_bounded
    (evs : list Gui.event) (s : Gui.state) :
  NoDup (Gui.selected_artists s) → length (Gui.selected_artists s) ≤ 5 →
  let s' := (run (Gui.clicks evs) s).2 in
  NoDup (Gui.selected_artists s') ∧
  length (Gui.selected_artists s') ≤ 5 ∧
  Gui.selected_artists s `prefix_of` Gui.selected_artists s' ∧
  (Gui.selected_artists s' = Gui.selected_artists s ∧
   Gui.selected_label s' = Gui.selected_label s ∨
   Gui.selected_label s' =
     "Selected: " +:+ Str.join ", " (Gui.selected_artists s')) ∧
  Gui.result_label s' = Gui.result_label s.
Proof.
  intros Hnd Hlen. apply (clicks_screen_ok evs s s).
  split; [done|]. split; [done|]. split; [done|]. split; [by left|done].
Qed.

(** X22: a full selection is final. Once five artists are selected no run
    of clicks changes the screen, and a click on an artist that is already
    selected changes nothing either. *)
Theorem clicks_on_full_selection_change_nothing
    (evs : list Gui.event) (ev : Gui.event) (s : Gui.state) :
  (5 ≤ length (Gui.selected_artists s) → (run (Gui.clicks evs) s).2 = s) ∧
  (Gui.listbox_get (Gui.widget ev) (Gui.nearest ev) ∈ Gui.selected_artists s →
   (run (Gui.add_artist ev) s).2 = s).
Proof.
  split.
  - intros Hfull. induction evs as [|e evs IH]; [done|].
    rewrite clicks_cons, add_artist_state. simpl.
    rewrite decide_False by lia. exact IH.
  - intros Hin. rewrite add_artist_state. simpl.
    rewrite decide_False; [done|]. by intros [? _].
Qed.

(** X23: [find_match] reports a percentage exactly when five artists are
    selected. After any run of clicks from the opening screen it leaves the
    selection and its label as they are, and shows the drawn percentage when
    five artists are selected and the request to select five otherwise. *)
Theorem find_match_needs_five_artists (evs : list Gui.event) (randint : Z) :
  let s := (run (Gui.clicks evs) Gui.initial).2 in
  let s' := (run (Gui.find_match randint) s).2 in
  Gui.selected_artists s' = Gui.selected_artists s ∧
  Gui.selected_label s' = Gui.selected_label s ∧
  (Gui.result_label s' = (Gui.YouMatched randint, Some "#6c63ff") ↔
   length (Gui.selected_artists s) = 5) ∧
  (Gui.result_label s' = (Gui.PleaseSelect, Some "orange") ↔
   length (Gui.selected_artists s) < 5).
Proof.
  intros s s'.
  assert (length (Gui.selected_artists s) ≤ 5) as Hlen.
  { apply (clicks_screen_ok evs Gui.initial Gui.initial).
    split; [apply NoDup_nil_2|]. split; [simpl; lia|]. split; [done|].
    split; [by left|done]. }
  subst s'. unfold run, Gui.find_match, mbind, State_bind, get. simpl.
  case_decide as Hfew; simpl.
  - split; [done|]. split; [done|]. split; [|done]. split; [done|lia].
  - split; [done|]. split; [done|]. split; [|split; [done|lia]].
    split; [lia|done].
Qed.

(** ** The further statements at concrete inputs *)





Lemma add_user_last_write_wins_witness :
  (run (Matcher.add_user (mkUser " BOB" ["Queen"]))
       (run (Matcher.add_user (mkUser "bob" ["Abba"])) ann_and_bob).2).2 =
  (run (Matcher.add_user (mkUser " BOB" ["Queen"])) ann_and_bob).2.
Proof.
  apply (add_user_last_write_wins ann_and_bob
           (mkUser "bob" ["Abba"]) (mkUser " BOB" ["Queen"])).
  reflexivity.
Defined.

Lemma match_ranks_every_other_record_witness :
  length (Matcher.match_ (mkUser "ann" ["Muse"]) 3 blank_entries).1 = 1.
Proof.
  destruct (match_ranks_every_other_record blank_entries (mkUser "ann" ["Muse"]) 3)
    as (_ & _ & _ & Hlen); [simpl; lia|].
  exact Hlen.
Defined.

Lemma match_depends_on_query_identity_and_artist_set_witness :
  (Matcher.match_ (mkUser "Q" ["Muse"; "MUSE "; " muse"]) 5 ann_and_bob).1 =
  (Matcher.match_ (mkUser " q " ["muse"]) 5 ann_and_bob).1.
Proof.
  apply (match_depends_on_query_identity_and_artist_set ann_and_bob
           (mkUser "Q" ["Muse"; "MUSE "; " muse"]) (mkUser " q " ["muse"]) 5).
  - reflexivity.
  - intros a. rewrite !list_elem_of_In. vm_compute. tauto.
Defined.

Lemma add_user_then_match_ranks_new_record_witness :
  score_entry (mkUser "Q" ["Muse"]) (mkUser "Cy" ["Muse"; "Abba"]) ∈
  (Matcher.match_ (mkUser "Q" ["Muse"]) 5
     (run (Matcher.add_user (mkUser "Cy" ["Muse"; "Abba"])) ann_and_bob).2).1.
Proof.
  apply (add_user_then_match_ranks_new_record ann_and_bob
           (mkUser "Cy" ["Muse"; "Abba"]) (mkUser "Q" ["Muse"]) 5).
  - vm_compute. discriminate.
  - vm_compute. discriminate.
Defined.

Lemma add_user_of_query_keeps_matches_witness :
  (Matcher.match_ (mkUser "Q" ["Muse"]) 5
     (run (Matcher.add_user (mkUser " q" ["Muse"; "Abba"])) ann_and_bob).2).1 =
  (Matcher.match_ (mkUser "Q" ["Muse"]) 5 ann_and_bob).1.
Proof.
  apply (add_user_of_query_keeps_matches ann_and_bob
           (mkUser " q" ["Muse"; "Abba"]) (mkUser "Q" ["Muse"]) 5).
  reflexivity.
Defined.

Lemma from_file_defaults_for_missing_keys_witness :
  Matcher.from_file JsonText.loads sparse_file "users.json" =
  Return (Matcher.mk [mkUser "" []; mkUser "Ann" []; mkUser "" ["Muse"]]).
Proof.
  apply (from_file_defaults_for_missing_keys JsonText.loads sparse_file "users.json"
           (JsonText.dumps sparse_document)
           [("version", JNumber 2);
            ("users", JArray [JObject [];
                              JObject [("name", JString "Ann"); ("age", JNumber 30)];
                              JObject [("top_artists", JArray [JString "Muse"])]])]
           [JObject [];
            JObject [("name", JString "Ann"); ("age", JNumber 30)];
            JObject [("top_artists", JArray [JString "Muse"])]]).
  - reflexivity.
  - vm_compute. reflexivity.
  - reflexivity.
  - repeat (constructor; [eexists; split; [reflexivity|split; reflexivity]|]).
    constructor.
Defined.

Lemma from_file_wrong_shape_witness :
  Matcher.from_file JsonText.loads list_file "users.json" = Raise AttributeError.
Proof.
  apply (from_file_wrong_shape JsonText.loads list_file "users.json" "[]" (JArray [])).
  - reflexivity.
  - vm_compute. reflexivity.
  - intros members. discriminate.
Defined.

Lemma clicks_keep_selection_distinct_and_bounded_witness :
  NoDup (Gui.selected_artists
           (run (Gui.clicks [Gui.mkEvent Gui.artists 3; Gui.mkEvent Gui.artists 3;
                             Gui.mkEvent Gui.artists 9]) Gui.initial).2) ∧
  length (Gui.selected_artists
            (run (Gui.clicks [Gui.mkEvent Gui.artists 3; Gui.mkEvent Gui.artists 3;
                              Gui.mkEvent Gui.artists 9]) Gui.initial).2) ≤ 5.
Proof.
  destruct (clicks_keep_selection_distinct_and_bounded
              [Gui.mkEvent Gui.artists 3; Gui.mkEvent Gui.artists 3;
               Gui.mkEvent Gui.artists 9] Gui.initial)
    as (Hnd & Hlen & _); [apply NoDup_nil_2|simpl; lia|].
  split; [exact Hnd|exact Hlen].
Defined.
